(** * Coop-Cam MJPEG relay: frame extraction, broadcast and the capture loop

    A shallow embedding of [stream_proxy.py]: the JPEG frame extractor that
    lives inside [StreamProxy.start_capture], the broadcaster
    [StreamProxy.broadcast_frame], the subscriber registry [self.clients] and
    the reconnect loop of [start_capture]. The capture task is followed step
    by step; the other tasks appear where it is suspended inside the loop
    over the registry, as the changes they make to the registry meanwhile. *)

From Stdlib Require Import Strings.Byte ZArith List Lia.
From stdpp Require Import base strings list gmap.
Import ListNotations.

Local Open Scope Z_scope.
Local Open Scope nat_scope.

(** ** Bytes objects *)

Abbreviation bytes := (list byte).

(** [b'\xff\xd8'] and [b'\xff\xd9'], the JPEG start and end markers. *)
Definition SOI : bytes := [xff; xd8].
Definition EOI : bytes := [xff; xd9].

(** [s.startswith(sub)] *)
Fixpoint startswith (s sub : bytes) : bool :=
  match sub, s with
  | [], _ => true
  | _ :: _, [] => false
  | a :: sub', b :: s' => Byte.eqb a b && startswith s' sub'
  end.

(** Lowest index at which [sub] occurs in [s], where the first byte of [s]
    carries index [i]. *)
Fixpoint find_from (sub s : bytes) (i : nat) : option nat :=
  if startswith s sub then Some i
  else match s with
       | [] => None
       | _ :: t => find_from sub t (S i)
       end.

(** Python's treatment of a slice index against a sequence of length [len]:
    a negative index counts from the end, and the result is clipped to
    [0 .. len]. *)
Definition clamp (len : nat) (i : Z) : nat :=
  if (i <? 0)%Z then Z.to_nat (Z.max (Z.of_nat len + i) 0)
  else Nat.min (Z.to_nat i) len.

(** [s.find(sub, start)]: the lowest index [>= start] where [sub] occurs,
    or [-1]. *)
Definition bytes_find (s sub : bytes) (start : Z) : Z :=
  let lo := if (start <? 0)%Z then Z.to_nat (Z.max (Z.of_nat (length s) + start) 0)
            else Z.to_nat start in
  if lo <=? length s then
    match find_from sub (drop lo s) lo with
    | Some i => Z.of_nat i
    | None => (-1)%Z
    end
  else (-1)%Z.

(** [s[lo:hi]] *)
Definition slice (s : bytes) (lo hi : Z) : bytes :=
  take (clamp (length s) hi - clamp (length s) lo) (drop (clamp (length s) lo) s).

(** [s[lo:]] *)
Definition slice_from (s : bytes) (lo : Z) : bytes :=
  drop (clamp (length s) lo) s.

(** ** The frame extractor (lines 24-40 of stream_proxy.py) *)

(** One pass through the body of [while True]: [None] is either [break],
    [Some (frame, buffer')] is a completed iteration. *)
Definition loop_step (buffer : bytes) : option (bytes * bytes) :=
  let start := bytes_find buffer SOI 0 in
  if (start =? -1)%Z then None
  else
    let end_ := bytes_find buffer EOI start in
    if (end_ =? -1)%Z then None
    else
      let frame := slice buffer start (end_ + 2) in
      let buffer' := slice_from buffer (end_ + 2) in
      Some (frame, buffer').

(** The [while True] loop, iterated at most [fuel] times. *)
Fixpoint drain (fuel : nat) (buffer : bytes) : list bytes * bytes :=
  match fuel with
  | 0 => ([], buffer)
  | S fuel' =>
      match loop_step buffer with
      | None => ([], buffer)
      | Some (frame, buffer') =>
          let '(frames, rest) := drain fuel' buffer' in
          (frame :: frames, rest)
      end
  end.

(** Every iteration removes at least one byte, so [length buffer] iterations
    always reach a [break] (lemma [extract_reaches_break] below). *)
Definition extract (buffer : bytes) : list bytes * bytes :=
  drain (length buffer) buffer.

(** [buffer += chunk] followed by the [while True] loop. *)
Definition ingest (buffer chunk : bytes) : list bytes * bytes :=
  extract (buffer ++ chunk).

(** [async for chunk in ...]: the frames emitted over a sequence of chunks and
    the buffer left at the end. *)
Fixpoint feed (buffer : bytes) (chunks : list bytes) : list bytes * bytes :=
  match chunks with
  | [] => ([], buffer)
  | chunk :: chunks' =>
      let '(frames, buffer') := ingest buffer chunk in
      let '(frames', buffer'') := feed buffer' chunks' in
      (frames ++ frames', buffer'')
  end.

(** A fresh connection starts with [buffer = b'']. *)
Definition run (chunks : list bytes) : list bytes * bytes := feed [] chunks.

(** ** Exceptions and shared state *)

(** A subscriber is a [web.StreamResponse] object; only its identity matters
    to the registry. *)
Definition client := nat.

(** [RuntimeError] is what the iterator of a set raises when the set has
    changed size since the iteration began. *)
Inductive exn := ConnectError | ReadError | WriteError | RuntimeError.

(** What the capture task does to the outside world, apart from writing to
    subscribers. *)
Inductive event :=
  | Get                    (* session.get(DROIDCAM_URL) *)
  | Print                  (* print(f"Capture error: {e}") *)
  | Sleep (seconds : nat). (* asyncio.sleep(seconds) *)

(** [clients] is [proxy.clients], shared between the capture task and the
    handlers of the viewers. [received] records, per subscriber, the byte
    strings its [write] accepted. [clock] counts the calls of
    [broadcast_frame] and [trace] lists the events of the capture task, oldest
    first. *)
Record world := World {
  clients : gset client;
  received : gmap client (list bytes);
  clock : nat;
  trace : list event
}.

(** A coroutine body either returns or raises, and in both cases leaves a
    state behind. [Undetermined] stands for the one situation this model does
    not follow any further: a set that is iterated after it was changed and
    got back to its old size, where what the iterator yields next depends on
    the layout of the hash table. Nothing is said about a run from there on. *)
Inductive outcome (A : Type) :=
  | Returned (a : A) (w : world)
  | Raised (e : exn) (w : world)
  | Undetermined (w : world).
Arguments Returned {A} a w.
Arguments Raised {A} e w.
Arguments Undetermined {A} w.

Definition action (A : Type) := world -> outcome A.

Definition ret {A} (a : A) : action A := fun w => Returned a w.
Definition raise {A} (e : exn) : action A := fun w => Raised e w.
Definition bind {A B} (k : A -> action B) (m : action A) : action B :=
  fun w => match m w with
           | Returned a w' => k a w'
           | Raised e w' => Raised e w'
           | Undetermined w' => Undetermined w'
           end.
(** [try: body / except: handler] *)
Definition try_except {A} (body : action A) (handler : exn -> action A) : action A :=
  fun w => match body w with
           | Returned a w' => Returned a w'
           | Raised e w' => handler e w'
           | Undetermined w' => Undetermined w'
           end.

#[export] Instance action_ret : MRet action := @ret.
#[export] Instance action_bind : MBind action := @bind.

Definition final {A} (o : outcome A) : world :=
  match o with Returned _ w => w | Raised _ w => w | Undetermined w => w end.

Definition log (e : event) : action unit :=
  fun w => Returned tt
    {| clients := clients w; received := received w; clock := clock w;
       trace := trace w ++ [e] |}.

(** ** The subscriber registry *)

(** [proxy.clients.add(response)] *)
Definition add (c : client) : action unit :=
  fun w => Returned tt
    {| clients := {[c]} ∪ clients w; received := received w; clock := clock w;
       trace := trace w |}.

(** [s.discard(c)] on the set itself. *)
Definition set_discard (c : client) (s : gset client) : gset client := s ∖ {[c]}.

(** [proxy.clients.discard(response)] *)
Definition discard (c : client) : action unit :=
  fun w => Returned tt
    {| clients := set_discard c (clients w); received := received w;
       clock := clock w; trace := trace w |}.

(** What the [stream_handler] of another connection does to [proxy.clients]
    when it gets to run: line 78 on entry, line 87 on exit. *)
Inductive registry_op :=
  | Join (response : client)
  | Leave (response : client).

Definition apply_op (s : gset client) (op : registry_op) : gset client :=
  match op with
  | Join c => {[c]} ∪ s
  | Leave c => set_discard c s
  end.

Definition apply_ops (ops : list registry_op) (s : gset client) : gset client :=
  foldl apply_op s ops.

(** Whether one of [ops], carried out in order from [s], changes the set. *)
Fixpoint mutates (ops : list registry_op) (s : gset client) : bool :=
  match ops with
  | [] => false
  | op :: ops' =>
      negb (bool_decide (apply_op s op = s)) || mutates ops' (apply_op s op)
  end.

(** No other task touches the registry. *)
Definition nobody : nat -> client -> list registry_op := fun _ _ => [].

(** ** The broadcaster (lines 49-62) *)

Definition CRLF : bytes := [x0d; x0a].

(** [b'--frame\r\nContent-Type: image/jpeg\r\n\r\n'] *)
Definition part_header : bytes :=
  String.list_byte_of_string "--frame" ++ CRLF ++
  String.list_byte_of_string "Content-Type: image/jpeg" ++ CRLF ++ CRLF.

Section Broadcaster.

(** The environment: [raises t c] tells whether the write to subscriber [c]
    during the broadcast numbered [t] raises (its connection is closed or
    broken by then). *)
Variable raises : nat -> client -> bool.

(** [meanwhile t c] lists what the handlers of other connections do to the
    registry while that write is suspended. *)
Variable meanwhile : nat -> client -> list registry_op.

(** [await client.write(frame_data)]: the coroutine is suspended, the other
    tasks run, and the write then returns or raises. A write that raises
    delivers nothing. *)
Definition write (c : client) (data : bytes) : action unit :=
  fun w =>
    let clients' := apply_ops (meanwhile (clock w) c) (clients w) in
    if raises (clock w) c then
      Raised WriteError
        {| clients := clients'; received := received w;
           clock := clock w; trace := trace w |}
    else Returned tt
      {| clients := clients';
         received := <[c := (received w !!! c) ++ [data]]> (received w);
         clock := clock w; trace := trace w |}.

(** The state after the write to [c], whether it returned or raised. *)
Definition after_write (c : client) (data : bytes) (w : world) : world :=
  {| clients := apply_ops (meanwhile (clock w) c) (clients w);
     received := if raises (clock w) c then received w
                 else <[c := (received w !!! c) ++ [data]]> (received w);
     clock := clock w; trace := trace w |}.

(** [for client in self.clients: try: ... except: dead_clients.append(client)]
    over the live set. [used] is the size the set had when the iteration
    began, [mutated] tells whether it was changed since, and [todo] lists the
    elements not yet visited. Every pass starts with the iterator's [next]:
    it raises [RuntimeError], outside the [try], when the size differs from
    [used]; otherwise it yields the next element of [todo], which is what the
    set still holds as long as it was not changed. *)
Fixpoint write_each (frame_data : bytes) (used : nat) (mutated : bool)
    (todo : list client) (dead_clients : list client) : action (list client) :=
  fun w =>
    if negb (size (clients w) =? used) then Raised RuntimeError w
    else if mutated then Undetermined w
    else
      match todo with
      | [] => Returned dead_clients w
      | c :: todo' =>
          let mutated' := mutates (meanwhile (clock w) c) (clients w) in
          (dead_clients' ← try_except (write c frame_data;; ret dead_clients)
                                      (fun _ => ret (dead_clients ++ [c]));
           write_each frame_data used mutated' todo' dead_clients') w
      end.

(** [for client in dead_clients: self.clients.discard(client)] *)
Fixpoint discard_each (dead_clients : list client) : action unit :=
  match dead_clients with
  | [] => ret tt
  | c :: cs => discard c;; discard_each cs
  end.

(** Bookkeeping of the model: however a call of [broadcast_frame] ends, the
    next one gets the next number. *)
Definition tick (w : world) : world :=
  {| clients := clients w; received := received w; clock := S (clock w);
     trace := trace w |}.

(** [body], followed by [tick] whichever way it ends. *)
Definition counted {A} (body : action A) : action A :=
  fun w => match body w with
           | Returned a w' => Returned a (tick w')
           | Raised e w' => Raised e (tick w')
           | Undetermined w' => Undetermined (tick w')
           end.

Definition broadcast_frame (frame : bytes) : action unit :=
  fun w =>
    let frame_data := part_header ++ frame ++ CRLF in
    counted
      (dead_clients ← write_each frame_data (size (clients w)) false
                                 (elements (clients w)) [];
       discard_each dead_clients) w.

(** [M] frames broadcast one at a time. *)
Fixpoint broadcast_all (frames : list bytes) : action unit :=
  match frames with
  | [] => ret tt
  | frame :: frames' => broadcast_frame frame;; broadcast_all frames'
  end.

(** ** The capture loop (lines 16-47) *)

(** [if self.clients: await self.broadcast_frame(frame)], for the frames the
    extractor hands over while it works through one chunk. *)
Fixpoint deliver (frames : list bytes) : action unit :=
  match frames with
  | [] => ret tt
  | frame :: frames' =>
      ((fun w => if bool_decide (clients w = ∅) then ret tt w
                 else broadcast_frame frame w) : action unit);;
      deliver frames'
  end.

(** How the body of one upstream response ends. *)
Inductive ending := EndOfStream | ReadFails.

(** [async for chunk in response.content.iter_chunked(1024)] *)
Fixpoint stream (buffer : bytes) (chunks : list bytes) (how : ending) : action unit :=
  match chunks with
  | [] => match how with
          | EndOfStream => ret tt
          | ReadFails => raise ReadError
          end
  | chunk :: chunks' =>
      let '(frames, buffer') := ingest buffer chunk in
      deliver frames;; stream buffer' chunks' how
  end.

(** What the upstream does at one connection attempt. *)
Inductive attempt :=
  | ConnectFails
  | Responds (status : Z) (chunks : list bytes) (how : ending).

(** One pass through the body of [while self.running]. *)
Definition capture_once (a : attempt) : action unit :=
  try_except
    (log Get;;
     match a with
     | ConnectFails => raise ConnectError
     | Responds status chunks how =>
         if (status =? 200)%Z then stream [] chunks how else ret tt
     end)
    (fun _ => log Print;; log (Sleep 1)).

(** [while self.running]: the loop runs once per entry of [script]; the end
    of the script is the moment [cleanup_background_tasks] has cleared
    [running]. *)
Fixpoint start_capture (script : list attempt) : action unit :=
  match script with
  | [] => ret tt
  | a :: script' => capture_once a;; start_capture script'
  end.

End Broadcaster.

(** ** [stream_handler] (lines 66-89): register, sleep until cancelled or
    closed, and always unregister. *)
Definition stream_handler_enter (response : client) : action unit := add response.
Definition stream_handler_exit (response : client) : action unit := discard response.

Definition world0 : world :=
  {| clients := ∅; received := ∅; clock := 0; trace := [] |}.

(** ** Vocabulary of the specification *)

(** [sub] occurs in [s] at index [i]. *)
Definition occurs_at (sub s : bytes) (i : nat) : Prop :=
  take (length sub) (drop i s) = sub.

(** [j] is the first index [>= start] at which [sub] occurs in [s]. *)
Definition first_from (sub s : bytes) (start j : nat) : Prop :=
  start <= j /\ occurs_at sub s j /\
  forall k, start <= k < j -> ~ occurs_at sub s k.

(** A byte range that starts with the start marker and ends with the end
    marker. *)
Definition well_formed (r : bytes) : Prop :=
  (exists t, r = SOI ++ t) /\ (exists t, r = t ++ EOI).

(** The end marker occurs in [r] only as its last two bytes. *)
Definition single_end (r : bytes) : Prop :=
  forall i, occurs_at EOI r i -> i + 2 = length r.

(** [gap1 ++ frame1 ++ gap2 ++ frame2 ++ ...] *)
Fixpoint interleave (gaps frames : list bytes) : bytes :=
  match gaps, frames with
  | g :: gaps', f :: frames' => g ++ f ++ interleave gaps' frames'
  | _, _ => []
  end.

(** The frames of [frames] wrapped as multipart parts. *)
Definition parts (frames : list bytes) : list bytes :=
  map (fun frame => part_header ++ frame ++ CRLF) frames.

(** What one broadcast, numbered [t], appends to the record of subscriber
    [c] when it iterates over [cs]. *)
Definition gain (raises : nat -> client -> bool) (cs : list client) (t : nat)
    (data : bytes) (c : client) : list bytes :=
  if bool_decide (c ∈ cs) && negb (raises t c) then [data] else [].

(** The attempts that end in an exception: a failed connect, or a read error
    in the body of a 200 response. *)
Definition attempt_raises (a : attempt) : bool :=
  match a with
  | ConnectFails => true
  | Responds status _ ReadFails => (status =? 200)%Z
  | Responds _ _ EndOfStream => false
  end.

(** The events of one pass of [while self.running]. *)
Definition pass_events (a : attempt) : list event :=
  if attempt_raises a then [Get; Print; Sleep 1] else [Get].

(** [w'] is a later state of [w] in which no subscriber was added and every
    record still begins with what it held in [w]. *)
Definition extends (w w' : world) : Prop :=
  clients w' ⊆ clients w /\
  forall c, received w !!! c `prefix_of` received w' !!! c.

(** Subscriber [c] is not registered in [w'] and its record is as in [w]. *)
Definition untouched (c : client) (w w' : world) : Prop :=
  (c ∉ clients w') /\ received w' !!! c = received w !!! c.

(** The other tasks leave the registry alone while a write is suspended. *)
Definition quiet (meanwhile : nat -> client -> list registry_op) : Prop :=
  forall t c, meanwhile t c = [].

(** ** Running the model *)

(** Two small JPEG-shaped frames, and one with an end marker inside. *)
Definition jpeg_a : bytes := [xff; xd8; x01; xff; xd9].
Definition jpeg_b : bytes := [xff; xd8; xff; xd9].
Definition jpeg_thumb : bytes := [xff; xd8; xff; xd9; x02; xff; xd9].

(** Three subscribers; the write to subscriber 2 raises during the broadcast
    numbered 1. *)
Definition raises_ex : nat -> client -> bool :=
  fun t c => (t =? 1) && (c =? 2).

Definition world_ex (t : nat) : world :=
  {| clients := {[1; 2; 3]}; received := ∅; clock := t; trace := [] |}.

(** Every write succeeds; and a viewer connects while the writes of the
    broadcast numbered [t0] are suspended. *)
Definition raises_never : nat -> client -> bool := fun _ _ => false.

Definition join_ex (t0 : nat) : nat -> client -> list registry_op :=
  fun t _ => if t =? t0 then [Join 7] else [].

Example run_ex1 :
  run [[x00; xff]; [xd8; x01; xff]; [xd9; xff; xd8; xff; xd9; xff]]
  = ([[xff; xd8; x01; xff; xd9]; [xff; xd8; xff; xd9]], [xff]).
Proof. vm_compute. reflexivity. Qed.

Example start_capture_ex :
  trace (final (start_capture raises_ex nobody
                  [Responds 200 [jpeg_a; jpeg_b] EndOfStream; ConnectFails;
                   Responds 404 [] EndOfStream; Responds 200 [jpeg_a] ReadFails]
                  (world_ex 0)))
  = [Get; Get; Print; Sleep 1; Get; Get; Print; Sleep 1].
Proof. vm_compute. reflexivity. Qed.

(** A viewer connects during the first broadcast: the first subscriber
    visited gets the first frame, the broadcast raises, the second frame of the
    response is never offered, and the loop prints, sleeps and reconnects. *)
Example start_capture_disturbed_ex :
  let w := final (start_capture raises_never (join_ex 0)
                    [Responds 200 [jpeg_a; jpeg_b] EndOfStream;
                     Responds 200 [] EndOfStream] (world_ex 0)) in
  trace w = [Get; Print; Sleep 1; Get] /\
  received w !!! 2 = parts [jpeg_a] /\
  received w !!! 3 = [] /\ received w !!! 1 = [] /\
  elements (clients w) = [2; 7; 3; 1].
Proof. vm_compute. repeat split. Qed.

(** ** Searching: [startswith], [find_from] and [bytes_find] *)

Lemma startswith_occurs s sub : startswith s sub = true <-> occurs_at sub s 0.
Proof.
  unfold occurs_at. rewrite drop_0. revert s.
  induction sub as [|a sub IH]; intros s; simpl.
  - destruct s; simpl; by rewrite ?take_0.
  - destruct s as [|b s]; simpl; [split; discriminate|].
    rewrite andb_true_iff, IH. split.
    + intros [Hab ->]. apply byte_dec_bl in Hab. by subst.
    + intros [= -> Ht]. split; [by apply byte_dec_lb | done].
Qed.

Lemma occurs_at_length sub s i :
  sub <> [] -> occurs_at sub s i -> i + length sub <= length s.
Proof.
  unfold occurs_at. intros Hne H.
  assert (Hl : length (take (length sub) (drop i s)) = length sub) by by rewrite H.
  rewrite length_take, length_drop in Hl.
  assert (0 < length sub) by (destruct sub; [done | simpl; lia]). lia.
Qed.

Lemma occurs_at_drop sub s n k :
  occurs_at sub (drop n s) k <-> occurs_at sub s (n + k).
Proof. unfold occurs_at. by rewrite drop_drop. Qed.

(** An occurrence that lies inside [s] is still there, and only there, when
    more bytes are appended. *)
Lemma occurs_at_app sub s c i :
  i + length sub <= length s ->
  occurs_at sub (s ++ c) i <-> occurs_at sub s i.
Proof.
  unfold occurs_at. intros Hle.
  rewrite drop_app_le by lia.
  rewrite take_app_le by (rewrite length_drop; lia). tauto.
Qed.

Lemma occurs_at_app_r sub a s i :
  occurs_at sub (a ++ s) (length a + i) <-> occurs_at sub s i.
Proof. unfold occurs_at. by rewrite drop_app_add. Qed.

Lemma find_from_unfold sub s i :
  find_from sub s i =
  if startswith s sub then Some i
  else match s with
       | [] => None
       | _ :: t => find_from sub t (S i)
       end.
Proof. by destruct s. Qed.

Lemma find_from_Some sub s i j :
  find_from sub s i = Some j ->
  exists k, j = i + k /\ occurs_at sub s k /\
            forall k', k' < k -> ~ occurs_at sub s k'.
Proof.
  revert i. induction s as [|a s IH]; intros i; rewrite find_from_unfold.
  - destruct (startswith [] sub) eqn:E; [|discriminate].
    intros [= <-]. exists 0. rewrite <- startswith_occurs.
    split_and!; [lia | done | lia].
  - destruct (startswith (a :: s) sub) eqn:E.
    + intros [= <-]. exists 0. rewrite <- startswith_occurs.
      split_and!; [lia | done | lia].
    + intros H. apply IH in H as (k & -> & Hk & Hmin).
      exists (S k). split_and!; [lia | done |].
      intros [|k'] Hlt.
      * rewrite <- startswith_occurs. congruence.
      * apply (Hmin k'). lia.
Qed.

Lemma find_from_None sub s i :
  find_from sub s i = None -> forall k, ~ occurs_at sub s k.
Proof.
  revert i. induction s as [|a s IH]; intros i; rewrite find_from_unfold.
  - destruct (startswith [] sub) eqn:E; [discriminate|]. intros _ k Hk.
    unfold occurs_at in Hk. rewrite drop_nil, take_nil in Hk. subst sub.
    discriminate.
  - destruct (startswith (a :: s) sub) eqn:E; [discriminate|].
    intros H [|k].
    + rewrite <- startswith_occurs. congruence.
    + by apply (IH _ H k).
Qed.

Lemma first_from_unique sub s start j j' :
  first_from sub s start j -> first_from sub s start j' -> j = j'.
Proof.
  intros (H1 & H2 & H3) (H1' & H2' & H3').
  destruct (Nat.lt_trichotomy j j') as [Hlt|[->|Hlt]]; [|done|].
  - exfalso. apply (H3' j); [lia | done].
  - exfalso. apply (H3 j'); [lia | done].
Qed.

Lemma bytes_find_nat s sub (start : nat) :
  bytes_find s sub (Z.of_nat start) =
  if start <=? length s then
    match find_from sub (drop start s) start with
    | Some i => Z.of_nat i
    | None => (-1)%Z
    end
  else (-1)%Z.
Proof.
  unfold bytes_find.
  destruct (Z.ltb_spec (Z.of_nat start) 0); [lia|].
  by rewrite Nat2Z.id.
Qed.

Lemma bytes_find_found s sub (start : nat) :
  bytes_find s sub (Z.of_nat start) <> (-1)%Z ->
  exists j, bytes_find s sub (Z.of_nat start) = Z.of_nat j /\
            first_from sub s start j.
Proof.
  rewrite bytes_find_nat.
  destruct (start <=? length s); [|done].
  destruct (find_from sub (drop start s) start) as [j|] eqn:E; [|done].
  intros _. exists j. split; [done|].
  apply find_from_Some in E as (k & -> & Hk & Hmin).
  split_and!; [lia | by apply occurs_at_drop |].
  intros k' [Hlo Hhi] Hocc.
  apply (Hmin (k' - start)); [lia|].
  apply occurs_at_drop. by replace (start + (k' - start)) with k' by lia.
Qed.

Lemma bytes_find_absent s sub (start : nat) :
  sub <> [] ->
  bytes_find s sub (Z.of_nat start) = (-1)%Z ->
  forall j, start <= j -> ~ occurs_at sub s j.
Proof.
  intros Hne. rewrite bytes_find_nat.
  destruct (Nat.leb_spec start (length s)) as [Hle|Hgt].
  - destruct (find_from sub (drop start s) start) as [j|] eqn:E; [lia|].
    intros _ j Hj Hocc.
    apply (find_from_None _ _ _ E (j - start)).
    apply occurs_at_drop. by replace (start + (j - start)) with j by lia.
  - intros _ j Hj Hocc. apply occurs_at_length in Hocc; [|done].
    destruct sub; [done|]. simpl in Hocc. lia.
Qed.

(** ** The two markers *)

Lemma occurs_at_two a b s i :
  occurs_at [a; b] s i <-> s !! i = Some a /\ s !! (S i) = Some b.
Proof.
  unfold occurs_at.
  replace (s !! i) with (drop i s !! 0) by (rewrite lookup_drop; f_equal; lia).
  replace (s !! S i) with (drop i s !! 1) by (rewrite lookup_drop; f_equal; lia).
  destruct (drop i s) as [|x [|y l]]; simpl; split;
    try (intros [? ?]); try intros ?; simplify_eq; done.
Qed.

Lemma SOI_excludes_EOI s i j :
  occurs_at SOI s i -> occurs_at EOI s j -> i <= j -> i + 2 <= j.
Proof.
  unfold SOI, EOI. rewrite !occurs_at_two. intros [H1 H2] [H3 H4] Hle.
  destruct (decide (j = i)) as [->|]; [congruence|].
  destruct (decide (j = S i)) as [->|]; [congruence|]. lia.
Qed.

Lemma marker_in_range sub s i :
  sub = SOI \/ sub = EOI -> occurs_at sub s i -> i + 2 <= length s.
Proof.
  intros [-> | ->] H; apply occurs_at_length in H; simpl in H; done.
Qed.

Lemma clamp_nat len (i : nat) : i <= len -> clamp len (Z.of_nat i) = i.
Proof.
  intros Hle. unfold clamp.
  destruct (Z.ltb_spec (Z.of_nat i) 0); [lia|].
  rewrite Nat2Z.id. lia.
Qed.

(** ** One iteration of the extraction loop *)

(** A completed iteration found the first start marker at [i], the first end
    marker at or after it at [j], emitted the bytes [i .. j+1] and kept the
    bytes from [j+2] on. *)
Lemma loop_step_Some buffer frame buffer' :
  loop_step buffer = Some (frame, buffer') ->
  exists i j,
    first_from SOI buffer 0 i /\ first_from EOI buffer i j /\
    frame = take (j + 2 - i) (drop i buffer) /\
    buffer' = drop (j + 2) buffer.
Proof.
  unfold loop_step.
  destruct (Z.eqb_spec (bytes_find buffer SOI 0) (-1)) as [|Hs]; [done|].
  apply (bytes_find_found buffer SOI 0) in Hs as (i & Hi & Hfi).
  change (Z.of_nat 0) with 0%Z in Hi. rewrite Hi.
  destruct (Z.eqb_spec (bytes_find buffer EOI (Z.of_nat i)) (-1)) as [|He]; [done|].
  apply bytes_find_found in He as (j & Hj & Hfj). rewrite Hj.
  intros [= <- <-]. exists i, j. split_and!; [done..| |].
  - unfold slice.
    assert (j + 2 <= length buffer)
      by (apply (marker_in_range EOI); [by right | apply Hfj]).
    destruct Hfj as (Hij & _).
    replace (Z.of_nat j + 2)%Z with (Z.of_nat (j + 2)) by lia.
    rewrite !clamp_nat by lia. done.
  - unfold slice_from.
    assert (j + 2 <= length buffer)
      by (apply (marker_in_range EOI); [by right | apply Hfj]).
    replace (Z.of_nat j + 2)%Z with (Z.of_nat (j + 2)) by lia.
    by rewrite clamp_nat by lia.
Qed.

(** A [break] means: no start marker, or no end marker at or after the first
    start marker. *)
Lemma loop_step_None buffer :
  loop_step buffer = None ->
  forall i, first_from SOI buffer 0 i ->
  forall j, i <= j -> ~ occurs_at EOI buffer j.
Proof.
  unfold loop_step.
  destruct (Z.eqb_spec (bytes_find buffer SOI 0) (-1)) as [Hs|Hs].
  - intros _ i (_ & Hi & _). exfalso.
    by apply (bytes_find_absent buffer SOI 0 ltac:(done) Hs i ltac:(lia)).
  - apply (bytes_find_found buffer SOI 0) in Hs as (i & Hi & Hfi).
    change (Z.of_nat 0) with 0%Z in Hi. rewrite Hi.
    destruct (Z.eqb_spec (bytes_find buffer EOI (Z.of_nat i)) (-1)) as [He|He];
      [|done].
    intros _ i' Hfi'. rewrite <- (first_from_unique _ _ _ _ _ Hfi Hfi').
    by apply bytes_find_absent.
Qed.

Lemma loop_step_complete buffer i j :
  first_from SOI buffer 0 i -> first_from EOI buffer i j ->
  loop_step buffer = Some (take (j + 2 - i) (drop i buffer), drop (j + 2) buffer).
Proof.
  intros Hi Hj. destruct (loop_step buffer) as [[f b']|] eqn:E.
  - apply loop_step_Some in E as (i' & j' & Hi' & Hj' & -> & ->).
    assert (i' = i) as -> by by eapply first_from_unique.
    assert (j' = j) as -> by by eapply first_from_unique. done.
  - exfalso. destruct Hj as (Hij & Hocc & _).
    by apply (loop_step_None _ E i Hi j Hij).
Qed.

Lemma loop_step_stuck buffer :
  (forall i, first_from SOI buffer 0 i ->
   forall j, i <= j -> ~ occurs_at EOI buffer j) ->
  loop_step buffer = None.
Proof.
  intros H. destruct (loop_step buffer) as [[f b']|] eqn:E; [|done].
  apply loop_step_Some in E as (i & j & Hi & (Hij & Hj & _) & _).
  exfalso. by apply (H i Hi j Hij).
Qed.

(** Each completed iteration splits the buffer into skipped bytes, the frame
    and the new buffer. *)
Lemma loop_step_split buffer frame buffer' :
  loop_step buffer = Some (frame, buffer') ->
  exists gap, buffer = gap ++ frame ++ buffer'.
Proof.
  intros H. apply loop_step_Some in H as (i & j & Hi & Hj & -> & ->).
  exists (take i buffer).
  destruct Hj as (Hij & Hj & _).
  rewrite <- (take_drop i buffer) at 1. f_equal.
  rewrite <- (take_drop (j + 2 - i) (drop i buffer)) at 1. f_equal.
  rewrite drop_drop. f_equal.
  pose proof (SOI_excludes_EOI buffer i j (proj1 (proj2 Hi)) Hj Hij). lia.
Qed.

Lemma loop_step_frame_length buffer frame buffer' :
  loop_step buffer = Some (frame, buffer') -> 4 <= length frame.
Proof.
  intros H. apply loop_step_Some in H as (i & j & Hi & Hj & -> & ->).
  destruct Hj as (Hij & Hj & _).
  pose proof (SOI_excludes_EOI buffer i j (proj1 (proj2 Hi)) Hj Hij).
  pose proof (marker_in_range EOI buffer j (or_intror eq_refl) Hj).
  rewrite length_take, length_drop. lia.
Qed.

Lemma loop_step_shrinks buffer frame buffer' :
  loop_step buffer = Some (frame, buffer') -> length buffer' < length buffer.
Proof.
  intros H. pose proof (loop_step_frame_length _ _ _ H).
  apply loop_step_split in H as [gap ->]. rewrite !length_app. lia.
Qed.

(** ** The loop as a whole *)

Lemma drain_fuel n m buffer :
  length buffer <= n -> length buffer <= m -> drain n buffer = drain m buffer.
Proof.
  revert m buffer. induction n as [|n IH]; intros m buffer Hn Hm.
  - destruct buffer; [|simpl in Hn; lia]. by destruct m.
  - destruct m as [|m].
    + destruct buffer; [|simpl in Hm; lia]. done.
    + simpl. destruct (loop_step buffer) as [[f b']|] eqn:E; [|done].
      apply loop_step_shrinks in E.
      rewrite (IH m b') by lia. done.
Qed.

(** The loop equation of [extract]: the fuel never runs out. *)
Lemma extract_unfold buffer :
  extract buffer =
  match loop_step buffer with
  | None => ([], buffer)
  | Some (frame, buffer') =>
      let '(frames, rest) := extract buffer' in (frame :: frames, rest)
  end.
Proof.
  unfold extract. destruct (loop_step buffer) as [[f b']|] eqn:E.
  - pose proof (loop_step_shrinks _ _ _ E) as Hlt.
    destruct (length buffer) as [|n] eqn:El; [lia|].
    simpl. rewrite E. rewrite (drain_fuel n (length b') b') by lia. done.
  - destruct (length buffer); simpl; by rewrite ?E.
Qed.

(** Induction along the iterations of the loop. *)
Lemma extract_ind (P : bytes -> list bytes -> bytes -> Prop) :
  (forall buffer, loop_step buffer = None -> P buffer [] buffer) ->
  (forall buffer frame buffer' frames rest,
     loop_step buffer = Some (frame, buffer') ->
     extract buffer' = (frames, rest) ->
     P buffer' frames rest -> P buffer (frame :: frames) rest) ->
  forall buffer, P buffer (extract buffer).1 (extract buffer).2.
Proof.
  intros Hbreak Hiter buffer.
  remember (length buffer) as n eqn:Hn. revert buffer Hn.
  induction n as [n IH] using lt_wf_ind. intros buffer ->.
  rewrite extract_unfold. destruct (loop_step buffer) as [[f b']|] eqn:E.
  - pose proof (IH (length b') (loop_step_shrinks _ _ _ E) b' eq_refl) as IHb.
    destruct (extract b') as [fs r] eqn:Eb. simpl in *. by eapply Hiter.
  - simpl. by apply Hbreak.
Qed.

(** The loop always ends in one of its two [break]s: what [extract] leaves in
    the buffer admits no further iteration. *)
Lemma extract_reaches_break buffer : loop_step (extract buffer).2 = None.
Proof.
  apply (extract_ind (fun _ _ rest => loop_step rest = None)); auto.
Qed.

Lemma extract_stuck buffer :
  loop_step buffer = None -> extract buffer = ([], buffer).
Proof. intros H. by rewrite extract_unfold, H. Qed.

(** Bytes appended to the buffer do not change an iteration that was already
    possible. *)
Lemma first_from_app sub s c start j :
  sub = SOI \/ sub = EOI ->
  first_from sub s start j -> first_from sub (s ++ c) start j.
Proof.
  intros Hsub (Hle & Hocc & Hmin).
  pose proof (marker_in_range sub s j Hsub Hocc) as Hin.
  assert (length sub = 2) as Hlen by (by destruct Hsub as [-> | ->]).
  split_and!; [done | apply occurs_at_app; [lia | done] |].
  intros k Hk Hocc'. apply (Hmin k Hk).
  apply occurs_at_app in Hocc'; [done | lia].
Qed.

Lemma loop_step_app buffer c frame buffer' :
  loop_step buffer = Some (frame, buffer') ->
  loop_step (buffer ++ c) = Some (frame, buffer' ++ c).
Proof.
  intros H. apply loop_step_Some in H as (i & j & Hi & Hj & -> & ->).
  pose proof (marker_in_range EOI buffer j (or_intror eq_refl) (proj1 (proj2 Hj))).
  pose proof (proj1 Hj).
  rewrite (loop_step_complete (buffer ++ c) i j);
    [| apply first_from_app; [by left | done]
     | apply first_from_app; [by right | done]].
  f_equal. f_equal.
  - rewrite drop_app_le by lia.
    rewrite take_app_le by (rewrite length_drop; lia). done.
  - rewrite drop_app_le by lia. done.
Qed.

(** Extracting from [buffer ++ c] is extracting from [buffer], then from what
    is left with [c] appended. *)
Lemma extract_app buffer c :
  extract (buffer ++ c) =
  let '(frames, rest) := extract buffer in
  let '(frames', rest') := extract (rest ++ c) in
  (frames ++ frames', rest').
Proof.
  remember (length buffer) as n eqn:Hn. revert buffer Hn.
  induction n as [n IH] using lt_wf_ind. intros buffer ->.
  rewrite (extract_unfold buffer).
  destruct (loop_step buffer) as [[f b']|] eqn:E.
  - rewrite (extract_unfold (buffer ++ c)), (loop_step_app _ c _ _ E).
    rewrite (IH (length b') (loop_step_shrinks _ _ _ E) b' eq_refl).
    destruct (extract b') as [fs r]. by destruct (extract (r ++ c)).
  - by destruct (extract (buffer ++ c)).
Qed.

(** Feeding chunks one at a time is extracting from their concatenation. *)
Lemma feed_concat buffer chunks :
  loop_step buffer = None ->
  feed buffer chunks = extract (buffer ++ concat chunks).
Proof.
  revert buffer. induction chunks as [|c cs IH]; intros buffer Hb; simpl.
  - by rewrite app_nil_r, extract_stuck.
  - unfold ingest. rewrite app_assoc, (extract_app (buffer ++ c)).
    pose proof (extract_reaches_break (buffer ++ c)) as Hr.
    destruct (extract (buffer ++ c)) as [fs r]. simpl in Hr.
    rewrite (IH r Hr). done.
Qed.

Lemma run_concat chunks : run chunks = extract (concat chunks).
Proof. unfold run. by rewrite feed_concat. Qed.

(** ** What an emitted frame looks like *)

Lemma loop_step_frame_markers buffer frame buffer' :
  loop_step buffer = Some (frame, buffer') ->
  (exists t, frame = SOI ++ t) /\ (exists t, frame = t ++ EOI) /\ single_end frame.
Proof.
  intros H. apply loop_step_Some in H as (i & j & Hi & Hj & -> & ->).
  destruct Hi as (_ & Hi & _). destruct Hj as (Hij & Hj & Hmin).
  pose proof (SOI_excludes_EOI buffer i j Hi Hj Hij) as Hgap.
  pose proof (marker_in_range EOI buffer j (or_intror eq_refl) Hj) as Hin.
  set (d := drop i buffer).
  assert (Hd0 : take 2 d = SOI).
  { apply (occurs_at_drop SOI buffer i 0). by rewrite Nat.add_0_r. }
  assert (Hdj : take 2 (drop (j - i) d) = EOI).
  { apply (occurs_at_drop EOI buffer i (j - i)).
    by replace (i + (j - i)) with j by lia. }
  split_and!.
  - exists (take (j - i) (drop 2 d)).
    rewrite <- Hd0, take_take_drop. f_equal. lia.
  - exists (take (j - i) d).
    rewrite <- Hdj, take_take_drop. f_equal. lia.
  - intros k Hk.
    assert (Hlen : length (take (j + 2 - i) d) = j + 2 - i).
    { rewrite length_take. unfold d. rewrite length_drop. lia. }
    pose proof (marker_in_range EOI _ k (or_intror eq_refl) Hk) as Hkin.
    rewrite Hlen in *.
    destruct (decide (j <= i + k)) as [|Hlt]; [lia|]. exfalso.
    apply (Hmin (i + k)); [lia|].
    apply occurs_at_drop. fold d.
    rewrite <- (take_drop (j + 2 - i) d).
    apply occurs_at_app; [simpl; lia | done].
Qed.

Lemma extract_frames_Forall (Q : bytes -> Prop) :
  (forall buffer frame buffer',
     loop_step buffer = Some (frame, buffer') -> Q frame) ->
  forall buffer, Forall Q (extract buffer).1.
Proof.
  intros HQ.
  apply (extract_ind (fun _ frames _ => Forall Q frames)).
  - intros. constructor.
  - intros b f b' fs r E _ IH. constructor; [by eapply HQ | done].
Qed.

Lemma extract_decompose buffer :
  exists gaps,
    length gaps = length (extract buffer).1 /\
    buffer = interleave gaps (extract buffer).1 ++ (extract buffer).2.
Proof.
  apply (extract_ind (fun b frames rest =>
    exists gaps, length gaps = length frames /\
                 b = interleave gaps frames ++ rest)).
  - intros b _. by exists [].
  - intros b f b' fs r E _ (gaps & Hlen & ->).
    apply loop_step_split in E as [gap ->].
    exists (gap :: gaps). split; [simpl; lia|].
    simpl. by rewrite <- !app_assoc.
Qed.

Lemma feed_app buffer chunks more :
  feed buffer (chunks ++ more) =
  let '(frames, rest) := feed buffer chunks in
  let '(frames', rest') := feed rest more in
  (frames ++ frames', rest').
Proof.
  revert buffer. induction chunks as [|c cs IH]; intros buffer; simpl.
  - by destruct (feed buffer more).
  - destruct (ingest buffer c) as [fs r]. rewrite IH.
    destruct (feed r cs) as [gs r']. destruct (feed r' more) as [hs r''].
    by rewrite app_assoc.
Qed.

(** ** The frame extractor: properties of the emitted frames *)

(** A byte range that is well formed and carries its only end marker at its
    very end is cut out whole by one iteration, whatever follows it. *)
Lemma loop_step_range r rest :
  well_formed r -> single_end r -> loop_step (r ++ rest) = Some (r, rest).
Proof.
  intros [[t Ht] [u Hu]] Hsingle.
  assert (Hend : occurs_at EOI r (length u)).
  { rewrite Hu. rewrite <- (Nat.add_0_r (length u)).
    apply occurs_at_app_r. done. }
  pose proof (Hsingle _ Hend) as Hlen.
  assert (Hs : first_from SOI (r ++ rest) 0 0).
  { split_and!; [lia | by rewrite Ht | lia]. }
  assert (He : first_from EOI (r ++ rest) 0 (length u)).
  { split_and!; [lia | apply occurs_at_app; [simpl; lia | done] |].
    intros k Hk Hocc. apply occurs_at_app in Hocc; [|simpl; lia].
    apply Hsingle in Hocc. lia. }
  rewrite (loop_step_complete _ 0 (length u) Hs He).
  rewrite drop_0, Nat.sub_0_r, Hlen.
  by rewrite take_app_length, drop_app_length.
Qed.

Lemma extract_ranges ranges :
  Forall well_formed ranges -> Forall single_end ranges ->
  extract (concat ranges) = (ranges, []).
Proof.
  induction ranges as [|r rs IH]; intros Hwf Hse.
  - done.
  - apply Forall_cons in Hwf as [Hr Hwf]. apply Forall_cons in Hse as [Hr' Hse].
    simpl. rewrite extract_unfold, (loop_step_range r _ Hr Hr').
    by rewrite (IH Hwf Hse).
Qed.

(** C1, as amended: when N byte ranges, each starting with 0xFF 0xD8, ending
    with 0xFF 0xD9 and containing the end marker nowhere but at its end, are
    concatenated and the stream is split into chunks in any way, feeding the
    chunks in order emits exactly these N ranges, byte for byte and in order,
    and leaves the buffer empty. *)
Theorem C1_ranges_recovered_when_end_marker_unique ranges chunks :
  Forall well_formed ranges -> Forall single_end ranges ->
  concat chunks = concat ranges ->
  run chunks = (ranges, []).
Proof.
  intros Hwf Hse Hcat. rewrite run_concat, Hcat. by apply extract_ranges.
Qed.

(** C5: when the bytes received hold no end marker at or after the first start
    marker, no frame is emitted and the buffer is the concatenation of every
    byte received, so its length is the total number of bytes received. *)
Theorem C5_buffer_keeps_everything_without_end_marker chunks :
  (forall i, first_from SOI (concat chunks) 0 i ->
   forall j, i <= j -> ~ occurs_at EOI (concat chunks) j) ->
  run chunks = ([], concat chunks) /\
  length (run chunks).2 = list_sum (map length chunks).
Proof.
  intros H. apply loop_step_stuck in H.
  rewrite run_concat, (extract_stuck _ H). split; [done|].
  simpl. apply length_concat.
Qed.

(** C6: after any sequence of chunks, the bytes received are, in order, the
    emitted frames separated by skipped bytes, followed by the buffer: every
    emitted frame is a complete range of bytes already received that ends in
    the end marker, no byte belongs to two frames, and the buffer allows no
    further emission. Later chunks only add frames cut from the buffer and the
    new bytes. *)
Theorem C6_frames_complete_and_emitted_once chunks more :
  (exists gaps, length gaps = length (run chunks).1 /\
     concat chunks = interleave gaps (run chunks).1 ++ (run chunks).2) /\
  Forall (fun frame => exists t, frame = t ++ EOI) (run chunks).1 /\
  loop_step (run chunks).2 = None /\
  (run (chunks ++ more)).1 = (run chunks).1 ++ (feed (run chunks).2 more).1.
Proof.
  split_and!.
  - rewrite run_concat. apply extract_decompose.
  - rewrite run_concat. apply extract_frames_Forall.
    intros b f b' E. by apply loop_step_frame_markers in E as (_ & ? & _).
  - rewrite run_concat. apply extract_reaches_break.
  - unfold run. rewrite feed_app. destruct (feed [] chunks) as [fs r].
    simpl. by destruct (feed r more).
Qed.

(** C7: every emitted frame has at least 4 bytes, begins with 0xFF 0xD8 and
    ends with 0xFF 0xD9, whatever the input. *)
Theorem C7_frames_are_delimited chunks :
  Forall (fun frame => 4 <= length frame /\
                       (exists t, frame = SOI ++ t) /\
                       (exists t, frame = t ++ EOI)) (run chunks).1.
Proof.
  rewrite run_concat. apply extract_frames_Forall.
  intros b f b' E. split.
  - by eapply loop_step_frame_length.
  - by apply loop_step_frame_markers in E as (? & ? & _).
Qed.

(** C8: every emitted frame holds the end marker only as its last two bytes;
    and a well-formed JPEG with an end marker embedded before its end is cut
    right after the first such marker: the frame emitted for it is a proper
    prefix of the JPEG. *)
Theorem C8_frame_ends_at_first_end_marker :
  (forall chunks, Forall single_end (run chunks).1) /\
  (forall jpeg i,
     well_formed jpeg -> first_from EOI jpeg 0 i -> i + 2 < length jpeg ->
     length (take (i + 2) jpeg) < length jpeg /\
     exists frames rest, run [jpeg] = (take (i + 2) jpeg :: frames, rest)).
Proof.
  split.
  - intros chunks. rewrite run_concat. apply extract_frames_Forall.
    intros b f b' E. by apply loop_step_frame_markers in E as (_ & _ & ?).
  - intros jpeg i [[t Ht] _] Hi Hlt.
    split; [rewrite length_take; lia|].
    rewrite run_concat. simpl. rewrite app_nil_r, extract_unfold.
    assert (Hs : first_from SOI jpeg 0 0).
    { split_and!; [lia | by rewrite Ht | lia]. }
    rewrite (loop_step_complete jpeg 0 i Hs Hi).
    rewrite drop_0, Nat.sub_0_r.
    destruct (extract (drop (i + 2) jpeg)) as [fs r]. by exists fs, r.
Qed.

(** ** The broadcaster *)

Lemma discard_each_spec dead w :
  exists w',
    discard_each dead w = Returned tt w' /\
    (forall c, c ∈ clients w' <-> c ∈ clients w /\ c ∉ dead) /\
    received w' = received w /\ clock w' = clock w /\ trace w' = trace w.
Proof.
  revert w. induction dead as [|d dead IH]; intros w.
  - exists w. split_and!; try done. intros c.
    pose proof (not_elem_of_nil c). tauto.
  - cbn [discard_each]. unfold mbind, action_bind, bind, discard.
    set (w1 := {| clients := set_discard d (clients w); received := received w;
                  clock := clock w; trace := trace w |}).
    destruct (IH w1) as (w' & -> & Hcl & Hrx & Hck & Htr).
    exists w'. subst w1. cbn [clients received clock trace] in *.
    split_and!; try done.
    intros c. rewrite Hcl. unfold set_discard.
    rewrite elem_of_difference, elem_of_singleton, not_elem_of_cons. tauto.
Qed.

Section BroadcasterFacts.

Variable raises : nat -> client -> bool.
Variable meanwhile : nat -> client -> list registry_op.

Lemma gain_cons_ne cs t data c x :
  x <> c -> gain raises (c :: cs) t data x = gain raises cs t data x.
Proof.
  intros Hne. unfold gain.
  rewrite (bool_decide_ext (x ∈ c :: cs) (x ∈ cs)); [done|].
  rewrite elem_of_cons. tauto.
Qed.

Lemma gain_registered cs t data c :
  c ∈ cs -> raises t c = false -> gain raises cs t data c = [data].
Proof.
  intros Hin Hr. unfold gain.
  by rewrite bool_decide_eq_true_2, Hr by done.
Qed.

Lemma gain_failed cs t data c : raises t c = true -> gain raises cs t data c = [].
Proof. intros Hr. unfold gain. by rewrite Hr, andb_false_r. Qed.

Lemma gain_unregistered cs t data c : c ∉ cs -> gain raises cs t data c = [].
Proof. intros Hin. unfold gain. by rewrite bool_decide_eq_false_2. Qed.

Lemma write_each_unfold frame_data used mutated todo dead w :
  write_each raises meanwhile frame_data used mutated todo dead w =
  if negb (size (clients w) =? used) then Raised RuntimeError w
  else if mutated then Undetermined w
  else
    match todo with
    | [] => Returned dead w
    | c :: todo' =>
        (dead' ← try_except (write raises meanwhile c frame_data;; ret dead)
                            (fun _ => ret (dead ++ [c]));
         write_each raises meanwhile frame_data used
           (mutates (meanwhile (clock w) c) (clients w)) todo' dead') w
    end.
Proof. by destruct todo. Qed.

Lemma write_each_step frame_data used c todo dead w :
  size (clients w) = used ->
  write_each raises meanwhile frame_data used false (c :: todo) dead w =
  write_each raises meanwhile frame_data used
    (mutates (meanwhile (clock w) c) (clients w)) todo
    (if raises (clock w) c then dead ++ [c] else dead)
    (after_write raises meanwhile c frame_data w).
Proof.
  intros Hsize. rewrite write_each_unfold, Hsize, Nat.eqb_refl. cbn [negb].
  unfold mbind, action_bind, bind, try_except, write, after_write.
  by destruct (raises (clock w) c).
Qed.


(** The undisturbed loop: no other task changes the registry during the
    writes of this broadcast. *)
Lemma write_each_spec frame_data cs dead w :
  NoDup cs ->
  (forall c, meanwhile (clock w) c = []) ->
  exists dead' w',
    write_each raises meanwhile frame_data (size (clients w)) false cs dead w
      = Returned dead' w' /\
    (forall c, c ∈ dead' <-> c ∈ dead \/ (c ∈ cs /\ raises (clock w) c = true)) /\
    clients w' = clients w /\ clock w' = clock w /\ trace w' = trace w /\
    forall c, received w' !!! c =
              (received w !!! c) ++ gain raises cs (clock w) frame_data c.
Proof.
  revert dead w. induction cs as [|c cs IH]; intros dead w Hnd Hq.
  - rewrite write_each_unfold, Nat.eqb_refl. cbn [negb].
    exists dead, w. split_and!; try done.
    + intros c. rewrite elem_of_nil. tauto.
    + intros c. rewrite gain_unregistered by apply not_elem_of_nil.
      by rewrite app_nil_r.
  - apply NoDup_cons in Hnd as [Hc Hnd].
    rewrite (write_each_step _ _ _ _ _ _ eq_refl).
    assert (Haw : clients (after_write raises meanwhile c frame_data w) = clients w)
      by (unfold after_write; cbn [clients]; by rewrite Hq).
    assert (Hm : mutates (meanwhile (clock w) c) (clients w) = false)
      by by rewrite Hq.
    rewrite Hm.
    replace (size (clients w))
      with (size (clients (after_write raises meanwhile c frame_data w))) by by rewrite Haw.
    destruct (IH (if raises (clock w) c then dead ++ [c] else dead)
                (after_write raises meanwhile c frame_data w) Hnd Hq)
      as (dead' & w' & -> & Hdead & Hcl & Hck & Htr & Hrx).
    exists dead', w'. unfold after_write in Hcl, Hck, Htr, Hrx, Hdead.
    cbn [clients received clock trace] in *. rewrite Hq in Hcl.
    cbn [apply_ops foldl] in Hcl.
    split_and!; try done.
    + intros x. rewrite Hdead, elem_of_cons.
      destruct (raises (clock w) c) eqn:Er.
      * rewrite elem_of_app, list_elem_of_singleton. split.
        -- intros [[Hx | ->] | [Hx Hr]]; auto.
        -- intros [Hx | [[-> | Hx] Hr]]; auto.
      * split.
        -- intros [Hx | [Hx Hr]]; auto.
        -- intros [Hx | [[-> | Hx] Hr]]; auto. congruence.
    + intros x. rewrite Hrx.
      destruct (raises (clock w) c) eqn:Er.
      * f_equal. destruct (decide (x = c)) as [->|Hne].
        -- by rewrite !gain_failed.
        -- by rewrite gain_cons_ne.
      * destruct (decide (x = c)) as [->|Hne].
        -- rewrite lookup_total_insert_eq.
           rewrite (gain_unregistered cs) by done.
           rewrite (gain_registered (c :: cs)) by (done || apply list_elem_of_here).
           by rewrite app_nil_r.
        -- rewrite lookup_total_insert_ne by done. by rewrite gain_cons_ne.
Qed.

(** An undisturbed broadcast returns; it keeps exactly the subscribers whose
    write succeeded and hands each of them the wrapped frame once. *)
Lemma broadcast_frame_spec frame w :
  (forall c, meanwhile (clock w) c = []) ->
  exists w',
    broadcast_frame raises meanwhile frame w = Returned tt w' /\
    (forall c, c ∈ clients w' <->
               c ∈ clients w /\ raises (clock w) c = false) /\
    clock w' = S (clock w) /\ trace w' = trace w /\
    forall c, received w' !!! c =
              (received w !!! c) ++
              gain raises (elements (clients w)) (clock w)
                   (part_header ++ frame ++ CRLF) c.
Proof.
  intros Hq. unfold broadcast_frame, counted, mbind, action_bind, bind.
  destruct (write_each_spec (part_header ++ frame ++ CRLF)
              (elements (clients w)) [] w (NoDup_elements _) Hq)
    as (dead & w1 & -> & Hdead & Hcl & Hck & Htr & Hrx).
  destruct (discard_each_spec dead w1) as (w2 & -> & Hcl2 & Hrx2 & Hck2 & Htr2).
  eexists. split; [done|].
  unfold tick. cbn [clients received clock trace].
  split_and!; try congruence.
  intros c. rewrite Hcl2, Hcl, Hdead, elem_of_elements, elem_of_nil.
  destruct (raises (clock w) c); split.
  - intros [Hc Hn]. exfalso. apply Hn. auto.
  - intros [_ Hr]. discriminate.
  - intros [Hc _]. done.
  - intros [Hc _]. split; [done|]. intros [[] | [_ Hr]]. discriminate.
Qed.

(** A broadcast disturbed at its first write. When the registry changes size
    while the write to the first subscriber visited is suspended, the next
    step of the iteration raises [RuntimeError] out of [broadcast_frame]: no
    other subscriber is written to, and the removal of failed subscribers is
    not reached. *)
Lemma broadcast_frame_disturbed frame w c0 rest :
  elements (clients w) = c0 :: rest ->
  size (apply_ops (meanwhile (clock w) c0) (clients w)) <> size (clients w) ->
  exists w',
    broadcast_frame raises meanwhile frame w = Raised RuntimeError w' /\
    clients w' = apply_ops (meanwhile (clock w) c0) (clients w) /\
    clock w' = S (clock w) /\
    forall d, d <> c0 -> received w' !!! d = received w !!! d.
Proof.
  intros Hel Hsize. unfold broadcast_frame, counted, mbind, action_bind, bind.
  rewrite Hel, (write_each_step _ _ _ _ _ _ eq_refl), write_each_unfold.
  unfold after_write at 1. cbn [clients].
  apply Nat.eqb_neq in Hsize. rewrite Hsize. cbn [negb].
  eexists. split; [done|]. unfold tick, after_write.
  cbn [clients received clock trace]. split_and!; [done | done |].
  intros d Hd. destruct (raises (clock w) c0); [done|].
  by rewrite lookup_total_insert_ne.
Qed.

(** ** Undisturbed sequences of broadcasts *)

Hypothesis undisturbed : quiet meanwhile.

(** A sequence of broadcasts returns, advances the clock once per frame and
    never brings a subscriber back. *)
Lemma broadcast_all_returns frames w :
  exists w',
    broadcast_all raises meanwhile frames w = Returned tt w' /\
    clock w' = clock w + length frames /\ trace w' = trace w /\
    clients w' ⊆ clients w.
Proof.
  revert w. induction frames as [|f fs IH]; intros w.
  - exists w. split_and!; [done | simpl; lia | done | done].
  - cbn [broadcast_all]. unfold mbind, action_bind, bind.
    destruct (broadcast_frame_spec f w (fun c => undisturbed _ c))
      as (w1 & -> & Hcl & Hck & Htr & _).
    destruct (IH w1) as (w' & -> & Hck' & Htr' & Hsub).
    exists w'. split_and!; try done.
    + rewrite Hck', Hck. simpl. lia.
    + congruence.
    + intros c Hc. apply Hsub in Hc. by apply Hcl in Hc as [? _].
Qed.

(** A subscriber outside the registry is never written to. *)
Lemma broadcast_all_unregistered frames w c :
  c ∉ clients w ->
  received (final (broadcast_all raises meanwhile frames w)) !!! c
  = received w !!! c.
Proof.
  revert w. induction frames as [|f fs IH]; intros w Hc.
  - done.
  - cbn [broadcast_all]. unfold mbind, action_bind, bind.
    destruct (broadcast_frame_spec f w (fun c => undisturbed _ c))
      as (w1 & -> & Hcl & Hck & Htr & Hrx).
    rewrite IH by (rewrite Hcl; tauto).
    rewrite Hrx, gain_unregistered, app_nil_r; [done|].
    by rewrite elem_of_elements.
Qed.

(** A subscriber whose writes all succeed stays registered and receives the
    wrapped frames in broadcast order. *)
Lemma broadcast_all_healthy frames w c :
  c ∈ clients w ->
  (forall k, k < length frames -> raises (clock w + k) c = false) ->
  c ∈ clients (final (broadcast_all raises meanwhile frames w)) /\
  received (final (broadcast_all raises meanwhile frames w)) !!! c =
    (received w !!! c) ++ parts frames.
Proof.
  revert w. induction frames as [|f fs IH]; intros w Hc Hok.
  - simpl. by rewrite app_nil_r.
  - cbn [broadcast_all]. unfold mbind, action_bind, bind.
    destruct (broadcast_frame_spec f w (fun c => undisturbed _ c))
      as (w1 & -> & Hcl & Hck & Htr & Hrx).
    assert (H0 : raises (clock w) c = false).
    { rewrite <- (Nat.add_0_r (clock w)). apply Hok. simpl. lia. }
    destruct (IH w1) as [Hin Hrec].
    + apply Hcl. done.
    + intros k Hk. rewrite Hck.
      replace (S (clock w) + k) with (clock w + S k) by lia.
      apply Hok. simpl. lia.
    + split; [done|]. rewrite Hrec, Hrx.
      rewrite gain_registered by (by rewrite ?elem_of_elements).
      by rewrite <- app_assoc.
Qed.

End BroadcasterFacts.

Lemma nobody_quiet : quiet nobody.
Proof. by intros t c. Qed.

(** The undisturbed case: when no other task changes the registry while a
    write is suspended, a subscriber that is registered when a sequence of M
    frames starts and whose writes all succeed is still registered at the end
    and has received the M wrapped frames, each once, in broadcast order. *)
Lemma healthy_subscriber_receives_all_frames_when_undisturbed
    (raises : nat -> client -> bool)
    (meanwhile : nat -> client -> list registry_op)
    (frames : list bytes) (w : world) (c : client) :
  quiet meanwhile ->
  c ∈ clients w ->
  (forall k, k < length frames -> raises (clock w + k) c = false) ->
  exists w',
    broadcast_all raises meanwhile frames w = Returned tt w' /\
    c ∈ clients w' /\
    received w' !!! c = (received w !!! c) ++ parts frames.
Proof.
  intros Hq Hc Hok.
  destruct (broadcast_all_healthy raises meanwhile Hq frames w c Hc Hok)
    as [Hin Hrx].
  destruct (broadcast_all_returns raises meanwhile Hq frames w) as (w' & E & _).
  rewrite E in Hin, Hrx. by exists w'.
Qed.

(** C3 (where the code departs from it): when another viewer's handler
    changes the size of the registry while the write to the first subscriber
    visited is suspended, the iteration over [self.clients] raises
    [RuntimeError] out of [broadcast_frame], and no other subscriber receives
    the frame, however long it has been registered and whether or not its
    writes would succeed. *)
Theorem C3_registry_change_during_write_starves_the_other_subscribers
    (raises : nat -> client -> bool)
    (meanwhile : nat -> client -> list registry_op)
    (frame : bytes) (w : world) (c0 : client) (rest : list client) :
  elements (clients w) = c0 :: rest ->
  size (apply_ops (meanwhile (clock w) c0) (clients w)) <> size (clients w) ->
  exists w',
    broadcast_frame raises meanwhile frame w = Raised RuntimeError w' /\
    forall d, d ∈ rest ->
      d ∈ clients w /\ received w' !!! d = received w !!! d.
Proof.
  intros Hel Hsize.
  destruct (broadcast_frame_disturbed raises meanwhile frame w c0 rest Hel Hsize)
    as (w' & E & _ & _ & Hrx).
  exists w'. split; [done|]. intros d Hd.
  pose proof (NoDup_elements (clients w)) as Hnd.
  rewrite Hel in Hnd. apply NoDup_cons in Hnd as [Hc0 _].
  split.
  - apply elem_of_elements. rewrite Hel. by apply list_elem_of_further.
  - apply Hrx. by intros ->.
Qed.

(** The undisturbed case: when no other task changes the registry while a
    write is suspended and the write to subscriber [c] raises during the
    broadcast of [frame], that broadcast still returns normally and leaves [c]
    out of the registry; [c] receives neither this frame nor any later one,
    and every subscriber whose own writes succeed receives [frame] and all the
    frames after it. *)
Lemma failed_write_is_isolated_when_undisturbed
    (raises : nat -> client -> bool)
    (meanwhile : nat -> client -> list registry_op)
    (frame : bytes) (frames : list bytes) (w : world) (c : client) :
  quiet meanwhile ->
  c ∈ clients w ->
  raises (clock w) c = true ->
  exists w1 w',
    broadcast_frame raises meanwhile frame w = Returned tt w1 /\
    (c ∉ clients w1) /\
    broadcast_all raises meanwhile (frame :: frames) w = Returned tt w' /\
    (c ∉ clients w') /\
    received w' !!! c = received w !!! c /\
    forall d,
      d ∈ clients w ->
      (forall k, k < length (frame :: frames) -> raises (clock w + k) d = false) ->
      d ∈ clients w' /\
      received w' !!! d = (received w !!! d) ++ parts (frame :: frames).
Proof.
  intros Hq Hc Hr.
  destruct (broadcast_frame_spec raises meanwhile frame w (fun c => Hq _ c))
    as (w1 & E1 & Hcl & Hck & Htr & Hrx).
  destruct (broadcast_all_returns raises meanwhile Hq frames w1)
    as (w' & E' & _ & _ & Hsub).
  assert (Hc1 : c ∉ clients w1) by (rewrite Hcl; intros [_ ?]; congruence).
  assert (Eall : broadcast_all raises meanwhile (frame :: frames) w
                 = Returned tt w').
  { cbn [broadcast_all]. unfold mbind, action_bind, bind. by rewrite E1. }
  exists w1, w'. split_and!; try done.
  - intros Hin. apply Hc1. by apply Hsub.
  - pose proof (broadcast_all_unregistered raises meanwhile Hq frames w1 c Hc1)
      as Hu.
    rewrite E' in Hu. simpl in Hu.
    by rewrite Hu, Hrx, gain_failed, app_nil_r.
  - intros d Hd Hok.
    pose proof (broadcast_all_healthy raises meanwhile Hq (frame :: frames) w d
                  Hd Hok) as H.
    by rewrite Eall in H.
Qed.

(** C4 (where the code departs from it): when the write to the first
    subscriber visited raises and, while that write was suspended, another
    viewer registered, [broadcast_frame] does not return: it raises
    [RuntimeError]. The removal of failed subscribers is skipped, so the
    subscriber whose write failed is still registered, and no other
    subscriber receives the frame. *)
Theorem C4_failed_writer_stays_registered_when_a_viewer_joins
    (raises : nat -> client -> bool)
    (meanwhile : nat -> client -> list registry_op)
    (frame : bytes) (w : world) (c0 newcomer : client) (rest : list client) :
  elements (clients w) = c0 :: rest ->
  raises (clock w) c0 = true ->
  meanwhile (clock w) c0 = [Join newcomer] ->
  newcomer ∉ clients w ->
  exists w',
    broadcast_frame raises meanwhile frame w = Raised RuntimeError w' /\
    c0 ∈ clients w' /\
    forall d, d ∈ rest ->
      d ∈ clients w' /\ received w' !!! d = received w !!! d.
Proof.
  intros Hel Hr Hm Hnew.
  assert (Hin : forall d, d ∈ c0 :: rest -> d ∈ clients w)
    by (intros d Hd; apply elem_of_elements; by rewrite Hel).
  assert (Hsize : size (apply_ops (meanwhile (clock w) c0) (clients w))
                  <> size (clients w)).
  { rewrite Hm. cbn [apply_ops foldl apply_op].
    rewrite size_union by (apply disjoint_singleton_l; done).
    rewrite size_singleton. lia. }
  destruct (broadcast_frame_disturbed raises meanwhile frame w c0 rest Hel Hsize)
    as (w' & E & Hcl & _ & Hrx).
  rewrite Hm in Hcl. cbn [apply_ops foldl apply_op] in Hcl.
  exists w'. split; [done|].
  pose proof (NoDup_elements (clients w)) as Hnd.
  rewrite Hel in Hnd. apply NoDup_cons in Hnd as [Hc0 _].
  split.
  - rewrite Hcl. apply elem_of_union_r, Hin, list_elem_of_here.
  - intros d Hd. split.
    + rewrite Hcl. apply elem_of_union_r, Hin. by apply list_elem_of_further.
    + apply Hrx. by intros ->.
Qed.

(** C9: discarding a subscriber that is not in the registry changes nothing
    and raises nothing, in whatever state; in particular the handler's removal
    on exit returns normally, with the state unchanged, after an undisturbed
    broadcast has already dropped that subscriber for a failed write. *)
Theorem C9_discard_of_absent_subscriber_is_noop :
  (forall c s, c ∉ s -> set_discard c s = s) /\
  (forall c w, c ∉ clients w -> discard c w = Returned tt w) /\
  (forall (raises : nat -> client -> bool) frame w c,
     c ∈ clients w -> raises (clock w) c = true ->
     exists w1,
       broadcast_frame raises nobody frame w = Returned tt w1 /\
       (c ∉ clients w1) /\
       stream_handler_exit c w1 = Returned tt w1).
Proof.
  assert (Hset : forall c (s : gset client), c ∉ s -> set_discard c s = s).
  { intros c s Hc. unfold set_discard. apply set_eq. intros x.
    rewrite elem_of_difference, elem_of_singleton.
    split; [tauto|]. intros Hx. split; [done|]. by intros ->. }
  assert (Hdis : forall c w, c ∉ clients w -> discard c w = Returned tt w).
  { intros c [cl rx ck tr] Hc. unfold discard. cbn [clients received clock trace] in *.
    by rewrite Hset. }
  split_and!; [done | done |].
  intros raises frame w c Hc Hr.
  destruct (broadcast_frame_spec raises nobody frame w (fun c => eq_refl))
    as (w1 & E1 & Hcl & _).
  assert (Hc1 : c ∉ clients w1) by (rewrite Hcl; intros [_ ?]; congruence).
  exists w1. split_and!; [done | done |]. by apply Hdis.
Qed.


(** ** The capture loop *)

Section CaptureFacts.

Variable raises : nat -> client -> bool.
Variable meanwhile : nat -> client -> list registry_op.



Hypothesis undisturbed : quiet meanwhile.

Lemma deliver_returns frames w :
  exists w',
    deliver raises meanwhile frames w = Returned tt w' /\ trace w' = trace w.
Proof.
  revert w. induction frames as [|f fs IH]; intros w.
  - by exists w.
  - cbn [deliver]. unfold mbind, action_bind, bind.
    destruct (bool_decide (clients w = ∅)).
    + cbn [ret]. apply IH.
    + destruct (broadcast_frame_spec raises meanwhile f w
                  (fun c => undisturbed _ c)) as (w1 & -> & _ & _ & Htr & _).
      destruct (IH w1) as (w' & -> & Htr'). exists w'. split; congruence.
Qed.

(** The body of a response is worked through to its end: a clean end of
    stream returns, a read error raises. *)
Lemma stream_ends buffer chunks how w :
  exists w',
    stream raises meanwhile buffer chunks how w =
      match how with
      | EndOfStream => Returned tt w'
      | ReadFails => Raised ReadError w'
      end /\
    trace w' = trace w.
Proof.
  revert buffer w. induction chunks as [|c cs IH]; intros buffer w.
  - exists w. by destruct how.
  - cbn [stream]. destruct (ingest buffer c) as [fs b'].
    unfold mbind, action_bind, bind.
    destruct (deliver_returns fs w) as (w1 & -> & Htr).
    destruct (IH b' w1) as (w' & -> & Htr'). exists w'. split; congruence.
Qed.

Lemma capture_once_trace a w :
  exists w',
    capture_once raises meanwhile a w = Returned tt w' /\
    trace w' = trace w ++ pass_events a.
Proof.
  unfold capture_once, try_except, pass_events, attempt_raises.
  unfold mbind, action_bind, bind, log.
  set (w0 := {| clients := clients w; received := received w;
                clock := clock w; trace := trace w ++ [Get] |}).
  destruct a as [|status chunks how].
  - cbn [raise]. eexists. split; [done|].
    subst w0. cbn [clients received clock trace]. by rewrite <- !app_assoc.
  - destruct (status =? 200)%Z.
    + destruct (stream_ends [] chunks how w0) as (w' & -> & Htr).
      destruct how.
      * exists w'. split; [done|]. by rewrite Htr.
      * eexists. split; [done|]. cbn [clients received clock trace].
        rewrite Htr. subst w0. cbn [trace]. by rewrite <- !app_assoc.
    + cbn [ret]. exists w0. split; [done|]. by destruct how.
Qed.

(** The undisturbed capture loop returns, and its events are those of its
    passes, one after the other. *)
Lemma start_capture_trace script w :
  exists w',
    start_capture raises meanwhile script w = Returned tt w' /\
    trace w' = trace w ++ flat_map pass_events script.
Proof.
  revert w. induction script as [|a script IH]; intros w.
  - exists w. split; [done|]. simpl. by rewrite app_nil_r.
  - cbn [start_capture]. unfold mbind, action_bind, bind.
    destruct (capture_once_trace a w) as (w1 & -> & Htr).
    destruct (IH w1) as (w' & -> & Htr'). exists w'. split; [done|].
    rewrite Htr', Htr. simpl. by rewrite <- app_assoc.
Qed.

End CaptureFacts.

(** C2 (where the code departs from it): after a response that ends in a clean
    end of stream, the capture loop issues its next request immediately; no
    [Sleep] lies between the two [Get]s. After a connect error it does sleep
    one second first. (Stated for runs in which no other task changes the
    registry while a write is suspended.) *)
Theorem C2_end_of_stream_reconnects_without_backoff
    (raises : nat -> client -> bool) (chunks : list bytes) (a : attempt)
    (script : list attempt) (w : world) :
  (exists w' later,
     start_capture raises nobody
       (Responds 200 chunks EndOfStream :: a :: script) w
       = Returned tt w' /\
     trace w' = trace w ++ [Get; Get] ++ later) /\
  (exists w' later,
     start_capture raises nobody (ConnectFails :: a :: script) w
       = Returned tt w' /\
     trace w' = trace w ++ [Get; Print; Sleep 1; Get] ++ later).
Proof.
  split.
  - destruct (start_capture_trace raises nobody nobody_quiet
                (Responds 200 chunks EndOfStream :: a :: script) w)
      as (w' & E & Htr).
    exists w', (tl (pass_events a) ++ flat_map pass_events script).
    split; [done|]. rewrite Htr. f_equal.
    cbn [flat_map]. unfold pass_events. cbn [attempt_raises].
    by destruct (attempt_raises a).
  - destruct (start_capture_trace raises nobody nobody_quiet
                (ConnectFails :: a :: script) w)
      as (w' & E & Htr).
    exists w', (tl (pass_events a) ++ flat_map pass_events script).
    split; [done|]. rewrite Htr. f_equal.
    cbn [flat_map]. unfold pass_events. cbn [attempt_raises].
    by destruct (attempt_raises a).
Qed.

(** ** Concrete runs *)

(** Case analysis on the position of an end marker in a literal byte string. *)
Ltac end_marker_cases H :=
  let Hb := fresh "Hb" in
  pose proof (marker_in_range EOI _ _ (or_intror eq_refl) H) as Hb;
  match type of Hb with
  | _ <= ?n => let n' := eval vm_compute in n in change n with n' in Hb
  end;
  repeat match goal with
         | i : nat |- _ =>
             destruct i as [|i];
             [ first [ by vm_compute in H | reflexivity | cbn [length]; lia ]
             | try lia ]
         end.

(** A decidable proposition settled by evaluation. *)
Ltac decide_by_compute :=
  match goal with
  | |- ?P => apply (bool_decide_unpack P); vm_compute; exact I
  end.

Lemma jpeg_a_well_formed : well_formed jpeg_a.
Proof. split; [by exists [x01; xff; xd9] | by exists [xff; xd8; x01]]. Defined.

Lemma jpeg_b_well_formed : well_formed jpeg_b.
Proof. split; [by exists [xff; xd9] | by exists [xff; xd8]]. Defined.

Lemma jpeg_thumb_well_formed : well_formed jpeg_thumb.
Proof.
  split; [by exists [xff; xd9; x02; xff; xd9]
         | by exists [xff; xd8; xff; xd9; x02]].
Defined.

Lemma jpeg_a_single_end : single_end jpeg_a.
Proof. intros i H. end_marker_cases H. Defined.

Lemma jpeg_b_single_end : single_end jpeg_b.
Proof. intros i H. end_marker_cases H. Defined.

(** C1 as stated fails: a range that starts with 0xFF 0xD8 and ends with
    0xFF 0xD9 but has an end marker inside is not emitted whole. *)
Lemma C1_counterexample_embedded_end_marker :
  ~ (forall ranges chunks,
       Forall well_formed ranges ->
       concat chunks = concat ranges ->
       (run chunks).1 = ranges).
Proof.
  intros H.
  specialize (H [jpeg_thumb] [jpeg_thumb]
                (Forall_cons_2 _ _ _ jpeg_thumb_well_formed (Forall_nil_2 _))
                eq_refl).
  vm_compute in H. discriminate H.
Qed.

Lemma C1_witness :
  run [[xff]; [xd8; x01; xff; xd9; xff; xd8]; [xff; xd9]] = ([jpeg_a; jpeg_b], []).
Proof.
  apply (C1_ranges_recovered_when_end_marker_unique [jpeg_a; jpeg_b]).
  - apply Forall_cons_2; [apply jpeg_a_well_formed|].
    apply Forall_cons_2; [apply jpeg_b_well_formed | apply Forall_nil_2].
  - apply Forall_cons_2; [apply jpeg_a_single_end|].
    apply Forall_cons_2; [apply jpeg_b_single_end | apply Forall_nil_2].
  - reflexivity.
Defined.

Lemma C5_witness :
  run [[xff; xd9; x00]; [xff; xd8]; [x01; xff]]
    = ([], [xff; xd9; x00; xff; xd8; x01; xff]) /\
  length (run [[xff; xd9; x00]; [xff; xd8]; [x01; xff]]).2 = 7.
Proof.
  apply (C5_buffer_keeps_everything_without_end_marker
           [[xff; xd9; x00]; [xff; xd8]; [x01; xff]]).
  apply loop_step_None. vm_compute. reflexivity.
Defined.

Lemma C8_witness :
  length (take 4 jpeg_thumb) < length jpeg_thumb /\
  exists frames rest, run [jpeg_thumb] = ([xff; xd8; xff; xd9] :: frames, rest).
Proof.
  apply (proj2 C8_frame_ends_at_first_end_marker jpeg_thumb 2).
  - apply jpeg_thumb_well_formed.
  - split_and!; [lia | reflexivity |].
    intros k Hk Hocc. destruct k as [|[|k]]; [by vm_compute in Hocc.. | lia].
  - simpl. lia.
Defined.

Lemma C3_witness :
  exists w',
    broadcast_frame raises_never (join_ex 0) jpeg_a (world_ex 0)
      = Raised RuntimeError w' /\
    forall d, d ∈ [3; 1] ->
      d ∈ clients (world_ex 0) /\
      received w' !!! d = received (world_ex 0) !!! d.
Proof.
  apply (C3_registry_change_during_write_starves_the_other_subscribers
           raises_never (join_ex 0) jpeg_a (world_ex 0) 2 [3; 1]).
  - vm_compute. reflexivity.
  - vm_compute. discriminate.
Defined.

Lemma C4_witness :
  exists w',
    broadcast_frame raises_ex (join_ex 1) jpeg_a (world_ex 1)
      = Raised RuntimeError w' /\
    2 ∈ clients w' /\
    forall d, d ∈ [3; 1] ->
      d ∈ clients w' /\ received w' !!! d = received (world_ex 1) !!! d.
Proof.
  apply (C4_failed_writer_stays_registered_when_a_viewer_joins
           raises_ex (join_ex 1) jpeg_a (world_ex 1) 2 7 [3; 1]).
  - vm_compute. reflexivity.
  - reflexivity.
  - reflexivity.
  - decide_by_compute.
Defined.

Lemma C9_witness :
  set_discard 5 {[1; 2]} = ({[1; 2]} : gset client) /\
  exists w1,
    broadcast_frame raises_ex nobody jpeg_a (world_ex 1) = Returned tt w1 /\
    (2 ∉ clients w1) /\
    stream_handler_exit 2 w1 = Returned tt w1.
Proof.
  split.
  - apply (proj1 C9_discard_of_absent_subscriber_is_noop 5 {[1; 2]}).
    decide_by_compute.
  - apply (proj2 (proj2 C9_discard_of_absent_subscriber_is_noop)
             raises_ex jpeg_a (world_ex 1) 2).
    + decide_by_compute.
    + reflexivity.
Defined.


(** * Further properties of the relay *)

(** ** The extractor on noisy and on re-framed input *)

(** Bytes without a start marker in front of a frame are stepped over: the
    iteration emits the frame and keeps only what follows it. *)
Lemma loop_step_skips_noise g r rest :
  (forall i, ~ occurs_at SOI g i) ->
  well_formed r -> single_end r ->
  loop_step (g ++ r ++ rest) = Some (r, rest).
Proof.
  intros Hg [[t Ht] [u Hu]] Hsingle.
  assert (Hend : occurs_at EOI r (length u)).
  { rewrite Hu. rewrite <- (Nat.add_0_r (length u)). by apply occurs_at_app_r. }
  pose proof (Hsingle _ Hend) as Hlen.
  assert (Hr0 : occurs_at SOI (r ++ rest) 0) by by rewrite Ht.
  assert (Hs : first_from SOI (g ++ r ++ rest) 0 (length g)).
  { split_and!; [lia | |].
    - rewrite <- (Nat.add_0_r (length g)). by apply occurs_at_app_r.
    - intros k [_ Hk] Hocc.
      destruct (decide (k + 2 <= length g)) as [Hin|Hout].
      + apply (Hg k). by apply (occurs_at_app SOI g (r ++ rest) k Hin).
      + assert (S k = length g) as Hk1 by lia.
        apply occurs_at_two in Hocc as [_ H2].
        rewrite Hk1, lookup_app_r, Nat.sub_diag in H2 by lia.
        rewrite Ht in H2. simpl in H2. discriminate H2. }
  assert (He : first_from EOI (g ++ r ++ rest) (length g) (length g + length u)).
  { split_and!; [lia | |].
    - apply occurs_at_app_r. apply occurs_at_app; [simpl; lia | done].
    - intros k [Hlo Hhi] Hocc.
      replace k with (length g + (k - length g)) in Hocc by lia.
      apply occurs_at_app_r in Hocc.
      apply occurs_at_app in Hocc; [|simpl; lia].
      apply Hsingle in Hocc. lia. }
  rewrite (loop_step_complete _ _ _ Hs He). f_equal. f_equal.
  - rewrite drop_app_length.
    replace (length g + length u + 2 - length g) with (length r) by lia.
    by rewrite take_app_length.
  - replace (length g + length u + 2) with (length g + length r) by lia.
    rewrite <- drop_drop, drop_app_length. by rewrite drop_app_length.
Qed.

Lemma find_from_absent sub g :
  find_from sub g 0 = None -> forall i, ~ occurs_at sub g i.
Proof. apply find_from_None. Qed.

Lemma part_header_no_start : forall i, ~ occurs_at SOI part_header i.
Proof. apply find_from_absent. vm_compute. reflexivity. Qed.

Lemma crlf_part_header_no_start :
  forall i, ~ occurs_at SOI (CRLF ++ part_header) i.
Proof. apply find_from_absent. vm_compute. reflexivity. Qed.

(** Extraction from a multipart body, possibly preceded by the line break
    that closes an earlier part. *)
Lemma extract_parts g frame frames :
  g = [] \/ g = CRLF ->
  Forall well_formed (frame :: frames) -> Forall single_end (frame :: frames) ->
  extract (g ++ concat (parts (frame :: frames))) = (frame :: frames, CRLF).
Proof.
  revert g frame. induction frames as [|f' fs IH]; intros g frame Hg Hwf Hse.
  - apply Forall_cons in Hwf as [Hw _]. apply Forall_cons in Hse as [Hs _].
    cbn [parts map concat]. rewrite app_nil_r.
    replace (g ++ part_header ++ frame ++ CRLF)
      with ((g ++ part_header) ++ frame ++ CRLF) by by rewrite <- app_assoc.
    rewrite extract_unfold, (loop_step_skips_noise _ frame CRLF); [done| |done..].
    destruct Hg as [-> | ->];
      [apply part_header_no_start | apply crlf_part_header_no_start].
  - apply Forall_cons in Hwf as [Hw Hwf]. apply Forall_cons in Hse as [Hs Hse].
    change (parts (frame :: f' :: fs))
      with ((part_header ++ frame ++ CRLF) :: parts (f' :: fs)).
    cbn [concat].
    replace (g ++ (part_header ++ frame ++ CRLF) ++ concat (parts (f' :: fs)))
      with ((g ++ part_header) ++ frame ++ (CRLF ++ concat (parts (f' :: fs))))
      by by rewrite <- !app_assoc.
    rewrite extract_unfold, (loop_step_skips_noise _ frame _); [| |done..].
    + by rewrite (IH CRLF f' (or_intror eq_refl) Hwf Hse).
    + destruct Hg as [-> | ->];
        [apply part_header_no_start | apply crlf_part_header_no_start].
Qed.

Lemma run_frames_shape chunks :
  Forall well_formed (run chunks).1 /\ Forall single_end (run chunks).1.
Proof.
  rewrite run_concat. split; apply extract_frames_Forall; intros b f b' E;
    apply loop_step_frame_markers in E as (? & ? & ?); [by split | done].
Qed.

Lemma length_interleave gaps frames :
  length gaps = length frames ->
  length (interleave gaps frames) =
  list_sum (map length gaps) + list_sum (map length frames).
Proof.
  revert frames. induction gaps as [|g gaps IH]; intros [|f frames] Hlen;
    simpl in *; try done.
  rewrite !length_app, IH by lia. lia.
Qed.

Lemma frames_at_least_four frames :
  Forall (fun f : bytes => 4 <= length f) frames ->
  4 * length frames <= list_sum (map length frames).
Proof.
  induction 1 as [|f fs Hf _ IH]; simpl in *; lia.
Qed.

(** X1: the frames emitted and the buffer left depend on the bytes received
    only, not on where the chunk boundaries fall. *)
Theorem X1_chunk_boundaries_do_not_matter chunks chunks' :
  concat chunks = concat chunks' -> run chunks = run chunks'.
Proof. intros H. by rewrite !run_concat, H. Qed.

(** X2: bytes that hold no start marker and precede a complete frame (one
    whose only end marker is its last two bytes) are discarded: the frame is
    emitted unchanged and extraction goes on with the bytes after it. *)
Theorem X2_noise_before_a_frame_is_dropped g r rest :
  (forall i, ~ occurs_at SOI g i) ->
  well_formed r -> single_end r ->
  extract (g ++ r ++ rest) =
  ((r :: (extract rest).1), (extract rest).2).
Proof.
  intros Hg Hw Hs.
  rewrite extract_unfold, (loop_step_skips_noise g r rest Hg Hw Hs).
  by destruct (extract rest).
Qed.

(** X3: the extractor never makes bytes up: the emitted frames and the buffer
    together are no longer than the bytes received, and since every frame has
    at least four bytes, at most a quarter as many frames as bytes come out. *)
Theorem X3_emitted_bytes_bounded_by_received chunks :
  list_sum (map length (run chunks).1) + length (run chunks).2
    <= length (concat chunks) /\
  4 * length (run chunks).1 <= length (concat chunks).
Proof.
  assert (H4 : Forall (fun f : bytes => 4 <= length f) (run chunks).1).
  { rewrite run_concat. apply extract_frames_Forall.
    intros b f b' E. by eapply loop_step_frame_length. }
  apply frames_at_least_four in H4.
  rewrite run_concat in *.
  destruct (extract_decompose (concat chunks)) as (gaps & Hlen & Hcat).
  assert (Hl : length (concat chunks) =
               length (interleave gaps (extract (concat chunks)).1)
               + length (extract (concat chunks)).2)
    by (rewrite Hcat at 1; apply length_app).
  rewrite (length_interleave _ _ Hlen) in Hl. lia.
Qed.

(** X4: wrapping and extracting are inverse to each other. The body sent to a
    subscriber for a sequence of complete frames, cut into chunks in any way
    and fed to the extractor, gives back exactly these frames (the buffer then
    holds the closing line break). In particular this holds for the frames
    the extractor itself emitted. *)
Theorem X4_multipart_body_extracts_to_the_frames :
  (forall frames chunks,
     Forall well_formed frames -> Forall single_end frames ->
     concat chunks = concat (parts frames) ->
     run chunks = (frames, match frames with [] => [] | _ :: _ => CRLF end)) /\
  (forall upstream chunks,
     concat chunks = concat (parts (run upstream).1) ->
     (run chunks).1 = (run upstream).1).
Proof.
  assert (H1 : forall frames chunks,
     Forall well_formed frames -> Forall single_end frames ->
     concat chunks = concat (parts frames) ->
     run chunks = (frames, match frames with [] => [] | _ :: _ => CRLF end)).
  { intros frames chunks Hwf Hse Hcat. rewrite run_concat, Hcat.
    destruct frames as [|f fs]; [done|].
    by apply (extract_parts [] f fs (or_introl eq_refl)). }
  split; [done|].
  intros upstream chunks Hcat.
  destruct (run_frames_shape upstream) as [Hwf Hse].
  by rewrite (H1 _ _ Hwf Hse Hcat).
Qed.

(** ** Registry, broadcaster and capture loop together *)

Section RelayFacts.

Variable raises : nat -> client -> bool.
Variable meanwhile : nat -> client -> list registry_op.

Lemma deliver_empty frames w :
  clients w = ∅ -> deliver raises meanwhile frames w = Returned tt w.
Proof.
  intros He. induction frames as [|f fs IH]; [done|].
  cbn [deliver]. unfold mbind, action_bind, bind.
  by rewrite bool_decide_eq_true_2.
Qed.

Lemma deliver_app frames frames' w :
  deliver raises meanwhile (frames ++ frames') w =
  match deliver raises meanwhile frames w with
  | Returned _ w1 => deliver raises meanwhile frames' w1
  | Raised e w1 => Raised e w1
  | Undetermined w1 => Undetermined w1
  end.
Proof.
  revert w. induction frames as [|f fs IH]; intros w; [done|].
  cbn [app deliver]. unfold mbind, action_bind, bind.
  destruct (if bool_decide (clients w = ∅) then ret () w
            else broadcast_frame raises meanwhile f w) as [[] w1|e w1|w1];
    [apply IH | done | done].
Qed.

Lemma capture_once_unfold status chunks how w :
  capture_once raises meanwhile (Responds status chunks how) w =
  let w0 := final (log Get w) in
  if (status =? 200)%Z then
    match stream raises meanwhile [] chunks how w0 with
    | Returned _ w1 => Returned tt w1
    | Raised _ w1 => (log Print;; log (Sleep 1)) w1
    | Undetermined w1 => Undetermined w1
    end
  else Returned tt w0.
Proof.
  unfold capture_once, try_except, mbind, action_bind, bind.
  cbn [log final]. destruct (status =? 200)%Z; [|done].
  by destruct (stream raises meanwhile [] chunks how _) as [[] w1|e w1|w1].
Qed.

Lemma capture_once_empty a w :
  clients w = ∅ ->
  exists w',
    capture_once raises meanwhile a w = Returned tt w' /\
    clients w' = ∅ /\ received w' = received w /\ clock w' = clock w.
Proof.
  intros He. destruct a as [|status chunks how].
  - unfold capture_once, try_except, mbind, action_bind, bind. cbn [log raise].
    eexists. split; [done|]. by cbn [clients received clock].
  - rewrite capture_once_unfold. cbn zeta.
    destruct (status =? 200)%Z;
      [|eexists; split; [done|]; by cbn [log final clients received clock]].
    assert (Hs : forall buffer w0, clients w0 = ∅ ->
              stream raises meanwhile buffer chunks how w0 =
              match how with
              | EndOfStream => Returned tt w0
              | ReadFails => Raised ReadError w0
              end).
    { clear. induction chunks as [|c cs IH]; intros buffer w0 He0.
      - by destruct how.
      - cbn [stream]. destruct (ingest buffer c) as [fs b'].
        unfold mbind, action_bind, bind.
        rewrite deliver_empty by done. by apply IH. }
    rewrite Hs by done. destruct how.
    + eexists. split; [done|]. by cbn [log final clients received clock].
    + unfold mbind, action_bind, bind. cbn [log final].
      eexists. split; [done|]. by cbn [clients received clock].
Qed.

Hypothesis undisturbed : quiet meanwhile.

(** The frames handed to the broadcaster while a response body is read are
    those the extractor emits for its chunks, in order. *)
Lemma stream_as_deliver buffer chunks how w :
  exists w1,
    deliver raises meanwhile (feed buffer chunks).1 w = Returned tt w1 /\
    stream raises meanwhile buffer chunks how w =
      match how with
      | EndOfStream => Returned tt w1
      | ReadFails => Raised ReadError w1
      end.
Proof.
  revert buffer w. induction chunks as [|c cs IH]; intros buffer w.
  - exists w. split; [done|]. by destruct how.
  - cbn [stream feed]. destruct (ingest buffer c) as [fs b'].
    unfold mbind, action_bind, bind.
    destruct (deliver_returns raises meanwhile undisturbed fs w)
      as (w0 & E0 & _).
    destruct (IH b' w0) as (w1 & E1 & Es).
    exists w1. destruct (feed b' cs) as [gs b'']. cbn [fst] in *.
    by rewrite deliver_app, E0, E1, Es.
Qed.

(** While a subscriber whose writes succeed is registered, the guard
    [if self.clients] is always passed. *)
Lemma deliver_healthy frames w c :
  c ∈ clients w ->
  (forall k, k < length frames -> raises (clock w + k) c = false) ->
  deliver raises meanwhile frames w = broadcast_all raises meanwhile frames w.
Proof.
  revert w. induction frames as [|f fs IH]; intros w Hc Hok; [done|].
  cbn [deliver broadcast_all]. unfold mbind, action_bind, bind.
  rewrite bool_decide_eq_false_2
    by (intros He; rewrite He in Hc; by apply not_elem_of_empty in Hc).
  destruct (broadcast_frame_spec raises meanwhile f w
              (fun c => undisturbed _ c)) as (w1 & -> & Hcl & Hck & _).
  apply IH.
  - apply Hcl. split; [done|].
    rewrite <- (Nat.add_0_r (clock w)). apply Hok. simpl. lia.
  - intros k Hk. rewrite Hck.
    replace (S (clock w) + k) with (clock w + S k) by lia.
    apply Hok. simpl. lia.
Qed.

End RelayFacts.

(** X5: a broadcast during which no other task changes the registry returns
    normally and leaves in the registry exactly the subscribers that were
    registered and whose write did not raise; it adds none. *)
Theorem X5_broadcast_keeps_exactly_the_successful_writers
    (raises : nat -> client -> bool)
    (meanwhile : nat -> client -> list registry_op)
    (frame : bytes) (w : world) :
  (forall c, meanwhile (clock w) c = []) ->
  exists w',
    broadcast_frame raises meanwhile frame w = Returned tt w' /\
    clients w' = filter (fun c => raises (clock w) c = false) (clients w) /\
    clients w' ⊆ clients w.
Proof.
  intros Hq.
  destruct (broadcast_frame_spec raises meanwhile frame w Hq)
    as (w' & E & Hcl & _).
  exists w'. split_and!; [done | |].
  - apply set_eq. intros c. rewrite Hcl, elem_of_filter. tauto.
  - intros c Hc. by apply Hcl in Hc as [? _].
Qed.

(** X6: with nobody registered, a broadcast returns normally, writes nothing
    and leaves the registry empty; and the capture loop does not even call it:
    the frames of a chunk are dropped with the state untouched. *)
Theorem X6_empty_registry_drops_frames
    (raises : nat -> client -> bool)
    (meanwhile : nat -> client -> list registry_op)
    (frame : bytes) (frames : list bytes) (w : world) :
  clients w = ∅ ->
  (exists w',
     broadcast_frame raises meanwhile frame w = Returned tt w' /\
     clients w' = ∅ /\ received w' = received w) /\
  deliver raises meanwhile frames w = Returned tt w.
Proof.
  intros He. split; [|by apply deliver_empty].
  unfold broadcast_frame, counted, mbind, action_bind, bind.
  rewrite He, elements_empty, write_each_unfold, He, Nat.eqb_refl.
  eexists. split; [done|]. by cbn [tick clients received].
Qed.

(** X7: no replay. A subscriber that registers after some frames have been
    broadcast receives none of them: if its writes succeed from then on and,
    apart from this registration, no other task changes the registry, its
    record grows by the later frames only. *)
Theorem X7_late_subscriber_gets_only_later_frames
    (raises : nat -> client -> bool)
    (meanwhile : nat -> client -> list registry_op)
    (earlier later : list bytes) (w : world) (c : client) :
  quiet meanwhile ->
  c ∉ clients w ->
  (forall k, k < length later ->
             raises (clock w + length earlier + k) c = false) ->
  exists w',
    (broadcast_all raises meanwhile earlier;; stream_handler_enter c;;
     broadcast_all raises meanwhile later) w = Returned tt w' /\
    c ∈ clients w' /\
    received w' !!! c = (received w !!! c) ++ parts later.
Proof.
  intros Hq Hc Hok.
  unfold mbind, action_bind, bind, stream_handler_enter, add.
  pose proof (broadcast_all_unregistered raises meanwhile Hq earlier w c Hc)
    as Hrx1.
  destruct (broadcast_all_returns raises meanwhile Hq earlier w)
    as (w1 & E1 & Hck1 & _ & _).
  rewrite E1 in *. cbn [final] in Hrx1.
  set (w2 := {| clients := {[c]} ∪ clients w1; received := received w1;
                clock := clock w1; trace := trace w1 |}).
  assert (Hc2 : c ∈ clients w2)
    by (apply elem_of_union_l; by apply elem_of_singleton).
  assert (Hok2 : forall k, k < length later -> raises (clock w2 + k) c = false)
    by (intros k Hk; cbn [w2 clock]; rewrite Hck1; by apply Hok).
  destruct (broadcast_all_healthy raises meanwhile Hq later w2 c Hc2 Hok2)
    as [Hin Hrx].
  destruct (broadcast_all_returns raises meanwhile Hq later w2) as (w' & E' & _).
  rewrite E' in *. cbn [final] in *.
  exists w'. split_and!; [done | done |].
  by rewrite Hrx, <- Hrx1.
Qed.

(** X8: [stream_handler] registers its response on entry, so the response is
    in the registry while the handler sleeps, and its exit undoes the entry:
    for a response that was not registered before, entry followed by exit
    gives back the state it started from. *)
Theorem X8_handler_entry_and_exit_cancel (response : client) (w : world) :
  response ∉ clients w ->
  (exists w1, stream_handler_enter response w = Returned tt w1 /\
              response ∈ clients w1) /\
  (stream_handler_enter response;; stream_handler_exit response) w
    = Returned tt w.
Proof.
  intros Hc. split.
  - eexists. split; [done|]. cbn [clients].
    apply elem_of_union_l. by apply elem_of_singleton.
  - unfold mbind, action_bind, bind, stream_handler_enter, stream_handler_exit.
    unfold add, discard, set_discard. cbn [clients received clock trace].
    destruct w as [cl rx ck tr]. cbn [clients received clock trace] in *.
    f_equal. f_equal. apply set_eq. intros x.
    rewrite elem_of_difference, elem_of_union, elem_of_singleton.
    split; [tauto|]. intros Hx. split; [tauto|]. by intros ->.
Qed.

(** X9: after the handler has exited, no later broadcast writes to its
    response, whatever the writes would do. (No other task registers it
    again: [nobody].) *)
Theorem X9_nothing_is_written_after_handler_exit
    (raises : nat -> client -> bool) (frames : list bytes)
    (response : client) (w : world) :
  received (final ((stream_handler_exit response;;
                    broadcast_all raises nobody frames) w)) !!! response
  = received w !!! response.
Proof.
  unfold mbind, action_bind, bind, stream_handler_exit, discard.
  rewrite (broadcast_all_unregistered raises nobody nobody_quiet); [done|].
  cbn [clients]. unfold set_discard.
  rewrite elem_of_difference, elem_of_singleton. tauto.
Qed.


(** X11: a response whose status is not 200 is not read at all: whatever its
    body holds and however it ends, the pass only issues the request; nothing
    reaches a subscriber and nothing is slept. *)
Theorem X11_non_200_response_is_ignored
    (raises : nat -> client -> bool)
    (meanwhile : nat -> client -> list registry_op)
    (status : Z) (chunks : list bytes) (how : ending) (w : world) :
  status <> 200%Z ->
  capture_once raises meanwhile (Responds status chunks how) w = log Get w.
Proof.
  intros Hs. rewrite capture_once_unfold. cbn zeta.
  by destruct (Z.eqb_spec status 200).
Qed.

(** X12: during one 200 response, as long as no other task changes the
    registry during the pass, the broadcaster is offered exactly
    the frames the extractor emits for the chunks of that response, starting
    from an empty buffer, in order; bytes buffered during an earlier response
    play no part. A read error at the end only adds the print and the
    sleep. *)
Theorem X12_a_pass_delivers_the_frames_of_its_own_response
    (raises : nat -> client -> bool)
    (meanwhile : nat -> client -> list registry_op)
    (chunks : list bytes) (how : ending) (w : world) :
  quiet meanwhile ->
  exists w1,
    deliver raises meanwhile (run chunks).1 (final (log Get w))
      = Returned tt w1 /\
    capture_once raises meanwhile (Responds 200 chunks how) w =
      match how with
      | EndOfStream => Returned tt w1
      | ReadFails => (log Print;; log (Sleep 1)) w1
      end.
Proof.
  intros Hq.
  destruct (stream_as_deliver raises meanwhile Hq [] chunks how
              (final (log Get w))) as (w1 & Ed & Es).
  exists w1. split; [done|].
  rewrite capture_once_unfold. cbn zeta.
  change (200 =? 200)%Z with true. cbv iota. rewrite Es. by destruct how.
Qed.

(** X13: end to end. When the upstream answers 200 with N complete frames
    (each with its only end marker at its end) cut into chunks in any way, and
    no other task changes the registry during the pass, a
    registered subscriber whose writes succeed is still registered after the
    pass and has received the N frames, wrapped, once each and in order,
    whether the response ends cleanly or with a read error. *)
Theorem X13_frames_reach_a_healthy_subscriber
    (raises : nat -> client -> bool)
    (meanwhile : nat -> client -> list registry_op)
    (ranges chunks : list bytes) (how : ending) (w : world) (c : client) :
  quiet meanwhile ->
  c ∈ clients w ->
  Forall well_formed ranges -> Forall single_end ranges ->
  concat chunks = concat ranges ->
  (forall k, k < length ranges -> raises (clock w + k) c = false) ->
  c ∈ clients (final (capture_once raises meanwhile
                        (Responds 200 chunks how) w)) /\
  received (final (capture_once raises meanwhile
                     (Responds 200 chunks how) w)) !!! c
    = (received w !!! c) ++ parts ranges.
Proof.
  intros Hq Hc Hwf Hse Hcat Hok.
  destruct (stream_as_deliver raises meanwhile Hq [] chunks how
              (final (log Get w))) as (w1 & Ed & Es).
  rewrite capture_once_unfold. cbn zeta.
  change (200 =? 200)%Z with true. cbv iota. rewrite Es.
  change (feed [] chunks) with (run chunks) in Ed.
  rewrite run_concat, Hcat, (extract_ranges ranges Hwf Hse) in Ed.
  cbn [fst] in Ed.
  rewrite (deliver_healthy raises meanwhile Hq ranges (final (log Get w)) c)
    in Ed by (cbn [log final clients clock]; done).
  destruct (broadcast_all_healthy raises meanwhile Hq ranges
              (final (log Get w)) c)
    as [Hin Hrx]; [by cbn [log final clients] | by cbn [log final clock] |].
  rewrite Ed in Hin, Hrx. cbn [final log received] in Hin, Hrx.
  destruct how.
  - by cbn [final].
  - unfold mbind, action_bind, bind. by cbn [log final clients received].
Qed.

(** X14: as long as nobody is registered, the capture loop touches no
    subscriber state: for every upstream behaviour it returns with the
    registry still empty, no write recorded and no broadcast made. *)
Theorem X14_capture_without_subscribers_writes_nothing
    (raises : nat -> client -> bool)
    (meanwhile : nat -> client -> list registry_op)
    (script : list attempt) (w : world) :
  clients w = ∅ ->
  exists w',
    start_capture raises meanwhile script w = Returned tt w' /\
    clients w' = ∅ /\ received w' = received w /\ clock w' = clock w.
Proof.
  revert w. induction script as [|a script IH]; intros w He.
  - by exists w.
  - cbn [start_capture]. unfold mbind, action_bind, bind.
    destruct (capture_once_empty raises meanwhile a w He)
      as (w1 & -> & He1 & Hrx1 & Hck1).
    destruct (IH w1 He1) as (w' & -> & He' & Hrx' & Hck').
    exists w'. split_and!; congruence.
Qed.

(** ** Concrete runs of the further properties *)

Lemma X1_witness :
  run [[xff; xd8]; [x01; xff]; [xd9]] = run [jpeg_a].
Proof.
  apply (X1_chunk_boundaries_do_not_matter
           [[xff; xd8]; [x01; xff]; [xd9]] [jpeg_a]).
  reflexivity.
Defined.

Lemma X2_witness :
  extract ([x00; xd9; xff; xd9] ++ jpeg_a ++ [xff]) =
  (jpeg_a :: (extract [xff]).1, (extract [xff]).2).
Proof.
  apply (X2_noise_before_a_frame_is_dropped [x00; xd9; xff; xd9] jpeg_a [xff]).
  - apply find_from_absent. vm_compute. reflexivity.
  - apply jpeg_a_well_formed.
  - apply jpeg_a_single_end.
Defined.

Lemma X4_witness :
  run [concat (parts [jpeg_a; jpeg_b])] = ([jpeg_a; jpeg_b], CRLF) /\
  (run [concat (parts (run [jpeg_thumb]).1)]).1 = (run [jpeg_thumb]).1.
Proof.
  split.
  - apply (proj1 X4_multipart_body_extracts_to_the_frames
             [jpeg_a; jpeg_b] [concat (parts [jpeg_a; jpeg_b])]).
    + apply Forall_cons_2; [apply jpeg_a_well_formed|].
      apply Forall_cons_2; [apply jpeg_b_well_formed | apply Forall_nil_2].
    + apply Forall_cons_2; [apply jpeg_a_single_end|].
      apply Forall_cons_2; [apply jpeg_b_single_end | apply Forall_nil_2].
    + vm_compute. reflexivity.
  - apply (proj2 X4_multipart_body_extracts_to_the_frames
             [jpeg_thumb] [concat (parts (run [jpeg_thumb]).1)]).
    vm_compute. reflexivity.
Defined.

Lemma X5_witness :
  exists w',
    broadcast_frame raises_ex (join_ex 0) jpeg_a (world_ex 1) = Returned tt w' /\
    clients w' = filter (fun c => raises_ex 1 c = false) (clients (world_ex 1)) /\
    clients w' ⊆ clients (world_ex 1).
Proof.
  apply (X5_broadcast_keeps_exactly_the_successful_writers
           raises_ex (join_ex 0) jpeg_a (world_ex 1)).
  reflexivity.
Defined.

Lemma X6_witness :
  (exists w',
     broadcast_frame raises_ex (join_ex 0) jpeg_a world0 = Returned tt w' /\
     clients w' = ∅ /\ received w' = received world0) /\
  deliver raises_ex (join_ex 0) [jpeg_a; jpeg_b] world0 = Returned tt world0.
Proof.
  apply (X6_empty_registry_drops_frames raises_ex (join_ex 0) jpeg_a
           [jpeg_a; jpeg_b] world0).
  reflexivity.
Defined.

Lemma X7_witness :
  exists w',
    (broadcast_all raises_ex nobody [jpeg_a];; stream_handler_enter 7;;
     broadcast_all raises_ex nobody [jpeg_b]) (world_ex 2) = Returned tt w' /\
    7 ∈ clients w' /\
    received w' !!! 7 = (received (world_ex 2) !!! 7) ++ parts [jpeg_b].
Proof.
  apply (X7_late_subscriber_gets_only_later_frames
           raises_ex nobody [jpeg_a] [jpeg_b] (world_ex 2) 7).
  - intros t c. reflexivity.
  - decide_by_compute.
  - intros k _. unfold raises_ex. apply andb_false_r.
Defined.

Lemma X8_witness :
  (exists w1, stream_handler_enter 7 (world_ex 0) = Returned tt w1 /\
              7 ∈ clients w1) /\
  (stream_handler_enter 7;; stream_handler_exit 7) (world_ex 0)
    = Returned tt (world_ex 0).
Proof.
  apply (X8_handler_entry_and_exit_cancel 7 (world_ex 0)).
  decide_by_compute.
Defined.


Lemma X11_witness :
  capture_once raises_ex (join_ex 0) (Responds 404 [jpeg_a] ReadFails) (world_ex 0)
  = log Get (world_ex 0).
Proof.
  apply (X11_non_200_response_is_ignored raises_ex (join_ex 0) 404 [jpeg_a]
           ReadFails (world_ex 0)).
  discriminate.
Defined.

Lemma X12_witness :
  exists w1,
    deliver raises_ex nobody (run [[xff]; [xd8; x01; xff; xd9]]).1
      (final (log Get (world_ex 0))) = Returned tt w1 /\
    capture_once raises_ex nobody
      (Responds 200 [[xff]; [xd8; x01; xff; xd9]] ReadFails) (world_ex 0)
    = (log Print;; log (Sleep 1)) w1.
Proof.
  apply (X12_a_pass_delivers_the_frames_of_its_own_response raises_ex nobody
           [[xff]; [xd8; x01; xff; xd9]] ReadFails (world_ex 0)).
  intros t c. reflexivity.
Defined.

Lemma X13_witness :
  3 ∈ clients (final (capture_once raises_ex nobody
                        (Responds 200 [[xff]; [xd8; x01; xff; xd9]] ReadFails)
                        (world_ex 0))) /\
  received (final (capture_once raises_ex nobody
                     (Responds 200 [[xff]; [xd8; x01; xff; xd9]] ReadFails)
                     (world_ex 0))) !!! 3
    = (received (world_ex 0) !!! 3) ++ parts [jpeg_a].
Proof.
  apply (X13_frames_reach_a_healthy_subscriber raises_ex nobody [jpeg_a]
           [[xff]; [xd8; x01; xff; xd9]] ReadFails (world_ex 0) 3).
  - intros t c. reflexivity.
  - decide_by_compute.
  - apply Forall_cons_2; [apply jpeg_a_well_formed | apply Forall_nil_2].
  - apply Forall_cons_2; [apply jpeg_a_single_end | apply Forall_nil_2].
  - reflexivity.
  - intros k _. unfold raises_ex. apply andb_false_r.
Defined.

Lemma X14_witness :
  exists w',
    start_capture raises_ex (join_ex 0)
      [Responds 200 [jpeg_a] EndOfStream; ConnectFails] world0 = Returned tt w' /\
    clients w' = ∅ /\ received w' = received world0 /\ clock w' = clock world0.
Proof.
  apply (X14_capture_without_subscribers_writes_nothing raises_ex (join_ex 0)
           [Responds 200 [jpeg_a] EndOfStream; ConnectFails] world0).
  reflexivity.
Defined.

(** ** What the undisturbed capture loop preserves *)

Section CaptureInvariants.

Variable raises : nat -> client -> bool.
Variable meanwhile : nat -> client -> list registry_op.
Hypothesis undisturbed : quiet meanwhile.

(** A relation between states that holds across every broadcast and across
    every logged event, and is reflexive and transitive. *)
Variable R : world -> world -> Prop.
Hypothesis R_refl : forall w, R w w.
Hypothesis R_trans : forall w1 w2 w3, R w1 w2 -> R w2 w3 -> R w1 w3.
Hypothesis R_broadcast :
  forall frame w w',
    broadcast_frame raises meanwhile frame w = Returned tt w' -> R w w'.
Hypothesis R_log : forall e w, R w (final (log e w)).

Lemma deliver_preserves frames w :
  R w (final (deliver raises meanwhile frames w)).
Proof.
  revert w. induction frames as [|f fs IH]; intros w; [apply R_refl|].
  cbn [deliver]. unfold mbind, action_bind, bind.
  destruct (bool_decide (clients w = ∅)); [apply IH|].
  destruct (broadcast_frame_spec raises meanwhile f w
              (fun c => undisturbed _ c)) as (w1 & E & _).
  rewrite E. apply (R_trans _ w1); [by eapply R_broadcast | apply IH].
Qed.

Lemma stream_preserves buffer chunks how w :
  R w (final (stream raises meanwhile buffer chunks how w)).
Proof.
  destruct (stream_as_deliver raises meanwhile undisturbed buffer chunks how w)
    as (w1 & Ed & Es).
  pose proof (deliver_preserves (feed buffer chunks).1 w) as H.
  rewrite Ed in H. rewrite Es. by destruct how.
Qed.

Lemma capture_once_preserves a w :
  R w (final (capture_once raises meanwhile a w)).
Proof.
  destruct a as [|status chunks how].
  - unfold capture_once, try_except, mbind, action_bind, bind.
    cbn [raise]. change (log Get w) with (Returned tt (final (log Get w))).
    cbv iota beta.
    apply (R_trans _ (final (log Get w))); [apply R_log|].
    change (log Print (final (log Get w)))
      with (Returned tt (final (log Print (final (log Get w))))).
    cbv iota beta.
    apply (R_trans _ (final (log Print (final (log Get w))))); apply R_log.
  - rewrite capture_once_unfold. cbn zeta.
    apply (R_trans _ (final (log Get w))); [apply R_log|].
    destruct (status =? 200)%Z; [|apply R_refl].
    pose proof (stream_preserves [] chunks how (final (log Get w))) as H.
    destruct (stream raises meanwhile [] chunks how (final (log Get w)))
      as [[] w1|e w1|w1]; cbn [final] in *; [done| |done].
    apply (R_trans _ w1); [done|].
    unfold mbind, action_bind, bind.
    change (log Print w1) with (Returned tt (final (log Print w1))).
    cbv iota beta.
    apply (R_trans _ (final (log Print w1))); apply R_log.
Qed.

Lemma start_capture_preserves script w :
  R w (final (start_capture raises meanwhile script w)).
Proof.
  revert w. induction script as [|a script IH]; intros w; [apply R_refl|].
  cbn [start_capture]. unfold mbind, action_bind, bind.
  pose proof (capture_once_preserves a w) as H.
  destruct (capture_once_trace raises meanwhile undisturbed a w)
    as (w1 & E & _).
  rewrite E in *. cbn [final] in H.
  apply (R_trans _ w1); [done | apply IH].
Qed.

End CaptureInvariants.

(** X15: the capture loop never registers a subscriber and never takes back a
    write: whatever the upstream and the subscribers do, the registry at the
    end is a subset of the registry at the start and every subscriber's
    record begins with what it held at the start. (The other tasks leave the
    registry alone: [nobody].) *)
Theorem X15_capture_only_shrinks_registry_and_grows_records
    (raises : nat -> client -> bool) (script : list attempt) (w : world) :
  extends w (final (start_capture raises nobody script w)).
Proof.
  apply (start_capture_preserves raises nobody nobody_quiet extends).
  - intros w0. split; [done|]. intros c. reflexivity.
  - intros w1 w2 w3 [Hs12 Hp12] [Hs23 Hp23]. split.
    + intros c Hc. apply Hs12. by apply Hs23.
    + intros c. etrans; [apply Hp12 | apply Hp23].
  - intros frame w0 w' E.
    destruct (broadcast_frame_spec raises nobody frame w0 (fun c => eq_refl))
      as (w1 & E1 & Hcl & _ & _ & Hrx).
    rewrite E in E1. injection E1 as <-. split.
    + intros c Hc. by apply Hcl in Hc as [? _].
    + intros c. rewrite Hrx. by apply prefix_app_r.
  - intros e w0. by split.
Qed.

(** X16: the capture loop never writes to a response that is not registered:
    a subscriber absent from the registry at the start is absent at the end
    and its record is unchanged, for every upstream behaviour. (The other
    tasks leave the registry alone: [nobody].) *)
Theorem X16_capture_never_writes_to_unregistered
    (raises : nat -> client -> bool) (script : list attempt) (w : world)
    (c : client) :
  c ∉ clients w ->
  untouched c w (final (start_capture raises nobody script w)).
Proof.
  apply (start_capture_preserves raises nobody nobody_quiet
           (fun w1 w2 => c ∉ clients w1 -> untouched c w1 w2)).
  - intros w0 Hc. by split.
  - intros w1 w2 w3 H12 H23 Hc.
    destruct (H12 Hc) as [Hc2 Hrx2]. destruct (H23 Hc2) as [Hc3 Hrx3].
    split; [done | congruence].
  - intros frame w0 w' E Hc.
    destruct (broadcast_frame_spec raises nobody frame w0 (fun c => eq_refl))
      as (w1 & E1 & Hcl & _ & _ & Hrx).
    rewrite E in E1. injection E1 as <-. split.
    + rewrite Hcl. tauto.
    + rewrite Hrx, gain_unregistered, app_nil_r; [done|].
      by rewrite elem_of_elements.
  - intros e w0 Hc. by split.
Qed.

Lemma X16_witness :
  untouched 7 (world_ex 0)
    (final (start_capture raises_ex nobody
              [Responds 200 [jpeg_a] EndOfStream; ConnectFails] (world_ex 0))).
Proof.
  apply (X16_capture_never_writes_to_unregistered raises_ex
           [Responds 200 [jpeg_a] EndOfStream; ConnectFails] (world_ex 0) 7).
  decide_by_compute.
Defined.
